(** * The image batch optimizer of [scripts/optimize_images.py]

    A shallow embedding of the script's per-file pipeline ([process_image]),
    of its two drivers ([find_large_images] and [main]) and of the report,
    over an in-memory file system; and of the two scripts that prefix the
    paths of moved pages, [scripts/update_project_paths.py] and
    [scripts/fix_volunteering_paths.py].

    Modelling conventions.
    - A path is the list of its components below [BASE_DIR]; the file system
      maps the paths of regular files to their bytes and records the
      directories that [mkdir] has made.
    - Python integers are [Z]; the two Python floats of the script (the
      fractional saving and the percentage of the report) are exact
      rationals [Q].  The quotient of two integers below [2^53] is rounded
      to the nearest double, and rounding is monotone, so the comparison
      with the threshold agrees with the exact one for every file the
      script can meet.
    - Pillow is not part of the repository.  Its decoders and encoders are
      the fields of a [Codec]; what it does to the header of an image
      (mode conversion, thumbnail size, EXIF transposition) is written out
      after its documentation.
    - File-system calls fail only where the model says so (a missing file,
      a path outside the image root, a path without a name): permissions,
      full disks and the like are outside the model. *)

From stdpp Require Import base gmap sets list strings sorting.
From Stdlib Require Import ZArith QArith Lia Lqa.
Close Scope Q_scope.
Open Scope Z_scope.

(** ** Paths (pathlib) *)

Abbreviation bytes := (list Byte.byte).
Abbreviation path := (list string).

Definition lower_ascii (c : Ascii.ascii) : Ascii.ascii :=
  let n := Ascii.nat_of_ascii c in
  if ((65 <=? n) && (n <=? 90))%nat then Ascii.ascii_of_nat (n + 32) else c.

(** [str.lower], on ASCII. *)
Fixpoint lower (s : string) : string :=
  match s with
  | EmptyString => EmptyString
  | String c s' => String (lower_ascii c) (lower s')
  end.

(** [str.rfind('.')]: the index of the last dot. *)
Fixpoint rfind_dot (s : string) : option nat :=
  match s with
  | EmptyString => None
  | String c s' =>
      match rfind_dot s' with
      | Some i => Some (S i)
      | None => if Ascii.eqb c (Ascii.ascii_of_nat 46) then Some 0%nat else None
      end
  end.

(** [PurePath.suffix] of a file name: the last dot and what follows it,
    unless the dot is the first or the last character. *)
Definition name_suffix (name : string) : string :=
  match rfind_dot name with
  | Some i =>
      if ((0 <? i) && (i <? String.length name - 1))%nat
      then String.substring i (String.length name - i) name
      else EmptyString
  | None => EmptyString
  end.

(** The name with its suffix replaced. *)
Definition name_with_suffix (name sfx : string) : string :=
  String.append
    (String.substring 0 (String.length name - String.length (name_suffix name)) name)
    sfx.

(** [PurePath.name]: the last component, empty for the empty path. *)
Definition path_name (p : path) : string := List.last p EmptyString.

Definition path_suffix (p : path) : string := name_suffix (path_name p).

Definition parent (p : path) : path := List.removelast p.

(** [PurePath.with_suffix]: raises [ValueError] on a path without a name. *)
Definition with_suffix (p : path) (sfx : string) : option path :=
  if decide (path_name p = EmptyString) then None
  else Some (parent p ++ [name_with_suffix (path_name p) sfx]).

(** [PurePath.relative_to]: raises [ValueError] when [p] is not below [root]. *)
Fixpoint relative_to (p root : path) {struct root} : option path :=
  match root with
  | [] => Some p
  | r :: root' =>
      match p with
      | [] => None
      | c :: p' => if decide (c = r) then relative_to p' root' else None
      end
  end.

(** [BASE_DIR / 'assets' / ...] *)
Definition IMG_DIR : path := ["assets"; "img"]%string.
Definition BACKUP_DIR : path := ["assets"; "img_backup"]%string.
Definition WEBP_DIR : path := ["assets"; "img_webp"]%string.

(** ** The file system *)

Record FS := mkFS {
  files : gmap path bytes;
  dirs : gset path
}.

Definition getsize (b : bytes) : Z := Z.of_nat (length b).

Definition exists_file (fs : FS) (p : path) : bool :=
  bool_decide (is_Some (files fs !! p)).

Definition write_file (p : path) (b : bytes) (fs : FS) : FS :=
  mkFS (<[p := b]> (files fs)) (dirs fs).

Definition unlink (p : path) (fs : FS) : FS :=
  mkFS (delete p (files fs)) (dirs fs).

(** [shutil.copy2 src dst] *)
Definition copy2 (src dst : path) (fs : FS) : FS :=
  match files fs !! src with
  | Some b => write_file dst b fs
  | None => fs
  end.

(** [shutil.move src dst]: a rename. *)
Definition move (src dst : path) (fs : FS) : FS :=
  match files fs !! src with
  | Some b => unlink src (write_file dst b fs)
  | None => fs
  end.

(** The directory [d] and all its ancestors. *)
Fixpoint ancestors (d : path) : list path :=
  match d with
  | [] => [[]]
  | c :: d' => [] :: List.map (cons c) (ancestors d')
  end.

(** [Path.mkdir(parents=True, exist_ok=True)] *)
Definition mkdir_p (d : path) (fs : FS) : FS :=
  mkFS (files fs) (dirs fs ∪ list_to_set (ancestors d)).

(** [p] lies strictly below [root]. *)
Definition below (root p : path) : bool :=
  match relative_to p root with
  | Some (_ :: _) => true
  | _ => false
  end.

(** [root.rglob('*')], regular files only: the files strictly below [root],
    in the order of the map. *)
Definition rglob (fs : FS) (root : path) : list path :=
  List.filter (below root) (map_to_list (files fs)).*1.

(** ** Pillow, at the level of image headers *)

(** The modes that [Image.open] gives to the files of the recognised
    formats (JPEG, PNG, GIF). *)
Inductive Mode :=
  | Mode_1 | Mode_L | Mode_LA | Mode_P | Mode_RGB | Mode_RGBA
  | Mode_CMYK | Mode_I | Mode_F.

Global Instance Mode_eq_dec : EqDecision Mode.
Proof. solve_decision. Defined.

(** An opened image: its header, the EXIF orientation tag (1 when absent)
    and its pixels, which stay abstract. *)
Record Image (R : Type) := mkImage {
  width : Z;
  height : Z;
  mode : Mode;
  orientation : Z;
  raster : R
}.
Arguments mkImage {R} _ _ _ _ _.
Arguments width {R} _.
Arguments height {R} _.
Arguments mode {R} _.
Arguments orientation {R} _.
Arguments raster {R} _.

(** What [Image.save] leaves at the output path: the encoded file, or, when
    it raises, nothing or a partial file. *)
Inductive save_result :=
  | Saved (b : bytes)
  | SaveFailed (partial : option bytes).

(** The parts of Pillow that work on pixels and bytes. *)
Record Codec := mkCodec {
  Raster : Type;
  (** [Image.open] and the loading of the pixels; [None] when it raises *)
  decode : bytes → option (Image Raster);
  convert_raster : Mode → Mode → Raster → Raster;
  (** Lanczos resampling from one size to another *)
  resize_raster : Z * Z → Z * Z → Raster → Raster;
  (** the transposition that an EXIF orientation tag asks for *)
  transpose_raster : Z → Raster → Raster;
  (** [convert('P', palette=ADAPTIVE, colors=256)]; [None] when it raises *)
  quantize_raster : Raster → option Raster;
  (** [save(_, 'JPEG', quality, optimize, progressive)] *)
  encode_jpeg : Image Raster → Z → bool → bool → save_result;
  (** [save(_, 'PNG', optimize)] *)
  encode_png : Image Raster → bool → save_result;
  (** [save(_, 'WEBP', quality, method)] *)
  encode_webp : Image Raster → Z → Z → save_result;
  (** no decoder identifies an empty file *)
  decode_nil : decode [] = None
}.

Definition has_alpha (m : Mode) : bool :=
  match m with Mode_LA | Mode_RGBA => true | _ => false end.

Definition indexed (m : Mode) : bool :=
  match m with Mode_P => true | _ => false end.

(** The modes that the JPEG encoder writes; on any other, [save] raises
    before it writes a byte. *)
Definition jpeg_writable (m : Mode) : bool :=
  match m with Mode_1 | Mode_L | Mode_RGB | Mode_CMYK => true | _ => false end.

(** [round_aspect] of [Image.thumbnail]: of the floor and the ceiling of
    [num / den], the one with the smaller [key] (the floor on a tie), and
    at least 1. *)
Definition round_aspect (num den : Z) (key_le : Z → Z → bool) : Z :=
  let lo := num / den in
  let hi := - ((- num) / den) in
  Z.max (if key_le lo hi then lo else hi) 1.

(** The size that [Image.thumbnail] picks for a [w]x[h] image and the box
    [x]x[y]: the aspect ratio [w / h] is kept as closely as whole pixels
    allow. *)
Definition thumbnail_size (w h x y : Z) : Z * Z :=
  if (w <=? x) && (h <=? y) then (w, h)
  else if h * x >=? w * y then
    (* x / y >= aspect: the height of the box binds *)
    (round_aspect (y * w) h
       (λ n1 n2, Z.abs (w * y - n1 * h) <=? Z.abs (w * y - n2 * h)), y)
  else
    (x, round_aspect (x * h) w
       (λ n1 n2,
          if n1 =? 0 then true else if n2 =? 0 then false
          else Z.abs (w * n1 - x * h) * n2 <=? Z.abs (w * n2 - x * h) * n1)).

Abbreviation image codec := (Image (Raster codec)).

Section Pillow.
Context (codec : Codec).

(** [Image.convert(m)] *)
Definition convert (m : Mode) (img : image codec) : image codec :=
  mkImage (width img) (height img) m (orientation img)
          (convert_raster codec (mode img) m (raster img)).

(** [Image.thumbnail((x, y), LANCZOS)]; [None] when Pillow raises, which
    it does on an empty image or an empty box. *)
Definition thumbnail (img : image codec) (x y : Z) : option (image codec) :=
  if (0 <? width img) && (0 <? height img) && (0 <? x) && (0 <? y) then
    let sz := thumbnail_size (width img) (height img) x y in
    Some (mkImage sz.1 sz.2 (mode img) (orientation img)
            (resize_raster codec (width img, height img) sz (raster img)))
  else None.

(** The orientations whose transposition exchanges the two axes. *)
Definition swaps_axes (o : Z) : bool := (5 <=? o) && (o <=? 8).

(** [ImageOps.exif_transpose]: the pixels are transposed as the tag asks
    and the tag is removed. *)
Definition exif_transpose (img : image codec) : image codec :=
  if (2 <=? orientation img) && (orientation img <=? 8) then
    let (w, h) :=
      if swaps_axes (orientation img) then (height img, width img)
      else (width img, height img) in
    mkImage w h (mode img) 1
            (transpose_raster codec (orientation img) (raster img))
  else img.

(** [Image.save(_, 'JPEG', ...)] *)
Definition save_jpeg (img : image codec) (quality : Z) (optimize progressive : bool)
  : save_result :=
  if jpeg_writable (mode img) then encode_jpeg codec img quality optimize progressive
  else SaveFailed None.

(** [convert('P', palette=Image.Palette.ADAPTIVE, colors=256)] *)
Definition quantize (img : image codec) : option (image codec) :=
  r ← quantize_raster codec (raster img);
  Some (mkImage (width img) (height img) Mode_P (orientation img) r).
End Pillow.

(** ** Configuration and statistics *)

(** The dictionary [DEFAULT_CONFIG]. *)
Record Config := mkConfig {
  quality : Z;
  webp_quality : Z;
  max_width : Z;
  max_height : Z;
  thumbnail_sizes : list Z;
  min_savings : Q;
  skip_small : Z;
  formats : list string
}.

Definition DEFAULT_CONFIG : Config :=
  {| quality := 85;
     webp_quality := 80;
     max_width := 1920;
     max_height := 1080;
     thumbnail_sizes := [400; 800];
     min_savings := (1 # 10)%Q;
     skip_small := 10240;
     formats := [".jpg"; ".jpeg"; ".png"; ".gif"]%string |}.

(** The global dictionary [stats]. *)
Record Stats := mkStats {
  processed : Z;
  skipped : Z;
  errors : Z;
  original_size : Z;
  new_size : Z;
  webp_created : Z
}.

Definition stats0 : Stats := mkStats 0 0 0 0 0 0.

Definition add_original (n : Z) (st : Stats) : Stats :=
  mkStats (processed st) (skipped st) (errors st)
          (original_size st + n) (new_size st) (webp_created st).

Definition add_new (n : Z) (st : Stats) : Stats :=
  mkStats (processed st) (skipped st) (errors st)
          (original_size st) (new_size st + n) (webp_created st).

Definition incr_processed (st : Stats) : Stats :=
  mkStats (processed st + 1) (skipped st) (errors st)
          (original_size st) (new_size st) (webp_created st).

Definition incr_skipped (st : Stats) : Stats :=
  mkStats (processed st) (skipped st + 1) (errors st)
          (original_size st) (new_size st) (webp_created st).

Definition incr_errors (st : Stats) : Stats :=
  mkStats (processed st) (skipped st) (errors st + 1)
          (original_size st) (new_size st) (webp_created st).

Definition incr_webp (st : Stats) : Stats :=
  mkStats (processed st) (skipped st) (errors st)
          (original_size st) (new_size st) (webp_created st + 1).

(** Exceptions that the model can raise, and results of calls that may
    raise one. *)
Inductive exn := FileNotFoundError | ValueError | ZeroDivisionError.

Inductive result (A : Type) :=
  | Ok (a : A)
  | Raise (e : exn).
Arguments Ok {A} _.
Arguments Raise {A} _.

(** ** The pipeline *)

(** [img.save(p, ...)]: the effect on the file system and whether the call
    returned. *)
Definition save_to (p : path) (r : save_result) (fs : FS) : FS * bool :=
  match r with
  | Saved b => (write_file p b fs, true)
  | SaveFailed (Some b) => (write_file p b fs, false)
  | SaveFailed None => (fs, false)
  end.

Section Pipeline.
Context (codec : Codec).

(** [Image.open(path)] *)
Definition open_image (fs : FS) (p : path) : option (image codec) :=
  content ← files fs !! p; decode codec content.

(** [get_image_info]: the header and the size on disk, [None] when the
    file cannot be opened. *)
Definition get_image_info (fs : FS) (p : path) : option (image codec * Z) :=
  content ← files fs !! p;
  img ← decode codec content;
  Some (img, getsize content).

(** The resize step shared by the two optimizers. *)
Definition resize_if_large (img : image codec) (max_width max_height : Z)
  : option (image codec) :=
  if (max_width <? width img) || (max_height <? height img)
  then thumbnail codec img max_width max_height
  else Some img.

(** The image that [optimize_jpeg] hands to the encoder. *)
Definition jpeg_prepare (img : image codec) (max_width max_height : Z)
  : option (image codec) :=
  let img1 :=
    if bool_decide (mode img = Mode_RGBA ∨ mode img = Mode_P)
    then convert codec Mode_RGB img else img in
  img2 ← resize_if_large img1 max_width max_height;
  Some (exif_transpose codec img2).

Definition optimize_jpeg (img_path output_path : path)
    (quality max_width max_height : Z) (fs : FS) : FS * bool :=
  match open_image fs img_path with
  | None => (fs, false)
  | Some img =>
      match jpeg_prepare img max_width max_height with
      | None => (fs, false)
      | Some out => save_to output_path (save_jpeg codec out quality true true) fs
      end
  end.

Definition optimize_png (img_path output_path : path)
    (max_width max_height : Z) (fs : FS) : FS * bool :=
  match open_image fs img_path with
  | None => (fs, false)
  | Some img0 =>
      match resize_if_large img0 max_width max_height with
      | None => (fs, false)
      | Some img =>
          if bool_decide (mode img = Mode_RGBA) then
            save_to output_path (encode_png codec img true) fs
          else if bool_decide (mode img = Mode_RGB) then
            match quantize codec img with
            | Some img_p =>
                match save_to output_path (encode_png codec img_p true) fs with
                | (fs', true) => (fs', true)
                | (fs', false) => save_to output_path (encode_png codec img true) fs'
                end
            | None => save_to output_path (encode_png codec img true) fs
            end
          else save_to output_path (encode_png codec img true) fs
      end
  end.

(** The image that [create_webp] hands to the encoder. *)
Definition webp_prepare (img : image codec) : image codec :=
  if bool_decide (mode img = Mode_RGBA ∨ mode img = Mode_LA ∨ mode img = Mode_P)
  then (if bool_decide (mode img = Mode_P) then convert codec Mode_RGBA img else img)
  else convert codec Mode_RGB img.

Definition create_webp (img_path output_path : path) (quality : Z) (fs : FS)
  : FS * bool :=
  match open_image fs img_path with
  | None => (fs, false)
  | Some img => save_to output_path (encode_webp codec (webp_prepare img) quality 6) fs
  end.

(** The optimizer that the lower-cased suffix selects (l.221-236). *)
Definition optimize (config : Config) (suffix : string) (p temp_path : path)
    (fs : FS) : FS * bool :=
  if bool_decide (suffix = ".jpg" ∨ suffix = ".jpeg")%string then
    optimize_jpeg p temp_path (quality config) (max_width config) (max_height config) fs
  else if bool_decide (suffix = ".png"%string) then
    optimize_png p temp_path (max_width config) (max_height config) fs
  else (fs, false).

(** [savings = (original_size - new_size) / original_size] *)
Definition savings (original new : Z) : Q :=
  (inject_Z (original - new) / inject_Z original)%Q.

(** The backup of the original, made once (l.247-250). *)
Definition backup_original (p backup_path : path) (fs : FS) : FS :=
  let fs1 := mkdir_p (parent backup_path) fs in
  if exists_file fs1 backup_path then fs1 else copy2 p backup_path fs1.

(** The decision on the optimized file (l.238-264).  The state comes back
    with the exception that stopped the stage, if one did. *)
Definition replace_stage (config : Config) (p temp_path : path)
    (original : Z) (success : bool) (fs : FS) (st : Stats)
  : FS * Stats * option exn :=
  match files fs !! temp_path with
  | Some optimized =>
      if success then
        let new := getsize optimized in
        if original =? 0 then (fs, st, Some ZeroDivisionError)
        else if Qle_bool (min_savings config) (savings original new) then
          match relative_to p IMG_DIR with
          | None => (fs, st, Some ValueError)
          | Some rel =>
              let fs1 := backup_original p (BACKUP_DIR ++ rel) fs in
              (move temp_path p fs1, incr_processed (add_new new st), None)
          end
        else (unlink temp_path fs, incr_skipped (add_new original st), None)
      else (unlink temp_path fs, add_new original st, None)
  | None => (fs, add_new original st, None)
  end.

(** The WebP copy (l.266-273). *)
Definition webp_stage (config : Config) (p : path) (fs : FS) (st : Stats)
  : FS * Stats * option exn :=
  match relative_to p IMG_DIR with
  | None => (fs, st, Some ValueError)
  | Some rel =>
      match with_suffix rel ".webp" with
      | None => (fs, st, Some ValueError)
      | Some rel_webp =>
          let webp_path := WEBP_DIR ++ rel_webp in
          let fs1 := mkdir_p (parent webp_path) fs in
          match create_webp p webp_path (webp_quality config) fs1 with
          | (fs2, true) => (fs2, incr_webp st, None)
          | (fs2, false) => (fs2, st, None)
          end
      end
  end.

(** The body of the [try] (l.220-273). *)
Definition try_body (config : Config) (suffix : string) (p temp_path : path)
    (original : Z) (fs : FS) (st : Stats) : FS * Stats * option exn :=
  let '(fs1, success) := optimize config suffix p temp_path fs in
  match replace_stage config p temp_path original success fs1 st with
  | (fs2, st2, None) => webp_stage config p fs2 st2
  | stopped => stopped
  end.

(** The handler of the [try] (l.275-279). *)
Definition on_exception (temp_path : path) (fs : FS) (st : Stats) : FS * Stats :=
  (if exists_file fs temp_path then unlink temp_path fs else fs, incr_errors st).

Definition process_image (config : Config) (p : path) (dry_run : bool)
    (fs : FS) (st : Stats) : result (FS * Stats) :=
  match files fs !! p with
  | None => Raise FileNotFoundError
  | Some content =>
      let original := getsize content in
      let st := add_original original st in
      if original <? skip_small config then Ok (fs, incr_skipped st)
      else
        let suffix := lower (path_suffix p) in
        match get_image_info fs p with
        | None => Ok (fs, incr_errors st)
        | Some info =>
            if dry_run then Ok (fs, add_new original (incr_processed st))
            else
              match with_suffix p (String.append ".opt" suffix) with
              | None => Raise ValueError
              | Some temp_path =>
                  match try_body config suffix p temp_path original fs st with
                  | (fs', st', None) => Ok (fs', st')
                  | (fs', st', Some _) => Ok (on_exception temp_path fs' st')
                  end
              end
        end
  end.
End Pipeline.

(** ** The drivers *)

(** [list.sort(key=lambda x: x[1], reverse=True)]: a stable sort, largest
    first. *)
Fixpoint insert_desc (x : path * Z) (l : list (path * Z)) : list (path * Z) :=
  match l with
  | [] => [x]
  | y :: l' => if x.2 <? y.2 then y :: insert_desc x l' else x :: l
  end.

Definition sort_desc (l : list (path * Z)) : list (path * Z) :=
  foldr insert_desc [] l.

(** The scan of [main] and of [find_large_images]: the files below
    [IMG_DIR] whose lower-cased suffix is a recognised format. *)
Definition find_images (fmts : list string) (fs : FS) : list path :=
  List.filter (λ p, bool_decide (lower (path_suffix p) ∈ fmts)) (rglob fs IMG_DIR).

Definition with_size (fs : FS) (p : path) : option (path * Z) :=
  content ← files fs !! p; Some (p, getsize content).

Definition find_large_images (min_size_kb : Z) (fs : FS) : list (path * Z) :=
  sort_desc
    (List.filter (λ e, min_size_kb * 1024 <? e.2)
       (omap (with_size fs) (find_images (formats DEFAULT_CONFIG) fs))).

(** What [generate_report] prints: the four counters and, when something
    was read, the two totals, their difference and the percentage. *)
Record Report := mkReport {
  images_processed : Z;
  images_skipped : Z;
  error_count : Z;
  webp_count : Z;
  size_lines : option (Z * Z * Z * Q)
}.

Definition generate_report (st : Stats) : Report :=
  mkReport (processed st) (skipped st) (errors st) (webp_created st)
    (if 0 <? original_size st then
       let total_savings := original_size st - new_size st in
       let savings_pct :=
         (inject_Z total_savings / inject_Z (original_size st) * inject_Z 100)%Q in
       Some (original_size st, new_size st, total_savings, savings_pct)
     else None).

(** The command line. *)
Record Args := mkArgs {
  dry_run : bool;
  arg_quality : Z;
  arg_max_width : Z;
  list_large : option Z
}.

(** How a run ends: [sys.exit], or the traceback of an exception that
    nothing caught. *)
Inductive Termination :=
  | Exit (status : Z)
  | Uncaught (e : exn).

(** What a run leaves behind: the file system, the lines of the listing
    (relative path and size) with the total, and the report. *)
Record Run := mkRun {
  termination : Termination;
  run_fs : FS;
  run_stats : Stats;
  listing : option (list (path * Z) * Z);
  report : option Report
}.

(** The path printed by the listing. *)
Definition rel_path (e : path * Z) : path * Z :=
  (default e.1 (relative_to e.1 IMG_DIR), e.2).

Section Drivers.
Context (codec : Codec).

(** The loop of [main] over the images (l.381-383).  An exception that
    leaves [process_image] ends the loop; the file system is then as the
    last completed call left it. *)
Fixpoint process_all (config : Config) (dry : bool) (images : list path)
    (fs : FS) (st : Stats) : FS * Stats * option exn :=
  match images with
  | [] => (fs, st, None)
  | p :: rest =>
      match process_image codec config p dry fs st with
      | Ok (fs', st') => process_all config dry rest fs' st'
      | Raise e => (fs, st, Some e)
      end
  end.

(** The configuration of a run: the defaults, with the quality and the
    maximal width of the command line (l.355-357). *)
Definition run_config (args : Args) : Config :=
  mkConfig (arg_quality args) (webp_quality DEFAULT_CONFIG)
           (arg_max_width args) (max_height DEFAULT_CONFIG)
           (thumbnail_sizes DEFAULT_CONFIG) (min_savings DEFAULT_CONFIG)
           (skip_small DEFAULT_CONFIG) (formats DEFAULT_CONFIG).

(** The second half of [main] (l.350-390): the optimizing run. *)
Definition optimize_all (args : Args) (fs : FS) : Run :=
  let fs1 := mkdir_p WEBP_DIR (mkdir_p BACKUP_DIR fs) in
  let config := run_config args in
  let images := find_images (formats config) fs1 in
  match process_all config (dry_run args) images fs1 stats0 with
  | (fs2, st, None) => mkRun (Exit 0) fs2 st None (Some (generate_report st))
  | (fs2, st, Some e) => mkRun (Uncaught e) fs2 st None None
  end.

Definition main (HAS_PIL : bool) (args : Args) (fs : FS) : Run :=
  if negb HAS_PIL then mkRun (Exit 1) fs stats0 None None
  else
    match list_large args with
    | Some kb =>
        (* [if args.list_large:] is false on 0 *)
        if kb =? 0 then optimize_all args fs
        else
          let large := find_large_images kb fs in
          mkRun (Exit 0) fs stats0
                (Some (rel_path <$> take 50 large, Z.of_nat (length large))) None
    | None => optimize_all args fs
    end.
End Drivers.

(** ** The vocabulary of the statements *)

(** The paths that the scan hands to [process_image]: strictly below
    [IMG_DIR], with a file name. *)
Definition image_path (p : path) : Prop :=
  below IMG_DIR p = true ∧ path_name p ≠ EmptyString.

(** The temporary file of [p] (l.217). *)
Definition temp_path (p : path) : option path :=
  with_suffix p (String.append ".opt" (lower (path_suffix p))).

Global Instance image_path_dec p : Decision (image_path p).
Proof. unfold image_path. apply _. Defined.

(** Two file systems hold the same files outside the paths [qs]. *)
Definition agree_off (qs : list path) (fs fs' : FS) : Prop :=
  ∀ q, q ∉ qs → files fs' !! q = files fs !! q.

(** What [process_image] finds before it writes anything: the file is too
    small, or cannot be opened, or is an image to work on. *)
Inductive Verdict := TooSmall | Unreadable | Readable.

Global Instance Verdict_eq_dec : EqDecision Verdict.
Proof. solve_decision. Defined.

Definition verdict (codec : Codec) (config : Config) (content : bytes) : Verdict :=
  if getsize content <? skip_small config then TooSmall
  else match decode codec content with
       | None => Unreadable
       | Some _ => Readable
       end.



Definition size_at (fs : FS) (p : path) : Z :=
  from_option getsize 0 (files fs !! p).

Definition sum_sizes (fs : FS) (images : list path) : Z :=
  foldr (λ p acc, size_at fs p + acc) 0 images.

(** The statistics of a file that is not written to. *)
Definition early_stats (v : Verdict) (n : Z) (st : Stats) : Stats :=
  match v with
  | TooSmall => incr_skipped (add_original n st)
  | Unreadable => incr_errors (add_original n st)
  | Readable => add_new n (incr_processed (add_original n st))
  end.




(** ** Sizes for people ([format_size])

    The number and the unit that [format_size] prints; the number is
    then shown with one decimal.  A size below [2^53] is a double, and
    dividing a double by 1024 is exact, so the number is the rational
    one; the comparisons with 1024, and so the unit, are exact for
    every size. *)
Inductive Unit := Unit_B | Unit_KB | Unit_MB | Unit_GB | Unit_TB.

Fixpoint format_size_loop (units : list Unit) (size_bytes : Q) : Q * Unit :=
  match units with
  | [] => (size_bytes, Unit_TB)
  | unit :: rest =>
      if negb (Qle_bool 1024 size_bytes) then (size_bytes, unit)
      else format_size_loop rest (size_bytes / 1024)%Q
  end.

Definition format_size (size_bytes : Z) : Q * Unit :=
  format_size_loop [Unit_B; Unit_KB; Unit_MB; Unit_GB] (inject_Z size_bytes).

(** The number of bytes that one of a unit stands for. *)
Definition unit_bytes (u : Unit) : Z :=
  match u with
  | Unit_B => 1
  | Unit_KB => 1024
  | Unit_MB => 1024 ^ 2
  | Unit_GB => 1024 ^ 3
  | Unit_TB => 1024 ^ 4
  end.
(** ** The scripts that rewrite pages

    [re.sub] with a pattern that has no metacharacter, on the characters
    of the page: from left to right, every occurrence of the pattern that
    does not overlap an earlier one is replaced.  The patterns of the
    scripts are ASCII, so the replacement on a decoded page and on its
    UTF-8 bytes are the same.  The pattern is not empty. *)
Fixpoint sub_from {A} `{EqDecision A} (pattern repl : list A) (skip : nat)
    (s : list A) : list A :=
  match s with
  | [] => []
  | c :: s' =>
      match skip with
      | S k => sub_from pattern repl k s'
      | O =>
          if bool_decide (pattern `prefix_of` s)
          then repl ++ sub_from pattern repl (length pattern - 1) s'
          else c :: sub_from pattern repl 0 s'
      end
  end.

Definition re_sub {A} `{EqDecision A} (pattern repl s : list A) : list A :=
  sub_from pattern repl 0 s.

(** [pattern] occurs in [s]. *)
Definition occurs {A} (pattern s : list A) : Prop :=
  ∃ a b, s = a ++ pattern ++ b.

(** One of two lists begins with the other. *)
Definition compatb {A} `{EqDecision A} (a b : list A) : bool :=
  bool_decide (a `prefix_of` b) || bool_decide (b `prefix_of` a).

(** No end of [q] can be continued into [repl], and [q] cannot start
    inside [repl]: a replacement by [repl] then makes no new occurrence
    of [q]. *)
Definition no_overlap {A} `{EqDecision A} (q repl : list A) : bool :=
  forallb (λ k, negb (compatb (drop k q) repl)) (seq 1 (length q - 1)) &&
  forallb (λ k, negb (compatb (drop k repl) q)) (seq 0 (length repl)).
Global Instance byte_eq_dec : EqDecision Byte.byte := Strings.Byte.byte_eq_dec.

(** ASCII text as bytes, and the beginning of an attribute: a name, the
    equals sign, a double quote and the beginning of the value. *)
Abbreviation text s := (String.list_byte_of_string s).

Definition attr (name value : string) : bytes :=
  text name ++ text "=" ++ [Byte.x22] ++ text value.

(** [update_project_paths.REPLACEMENTS]; the escaped dots of the patterns
    are plain dots. *)
Definition REPLACEMENTS : list (bytes * bytes) :=
  [ (attr "href" "assets/", attr "href" "../assets/");
    (attr "src" "assets/", attr "src" "../assets/");
    (attr "data" "assets/", attr "data" "../assets/");
    (attr "href" "index.html", attr "href" "../index.html");
    (attr "href" "index.html#", attr "href" "../index.html#");
    (attr "href" "portfolio-details-", attr "href" "portfolio-details-");
    (attr "href" "latest-projects-", attr "href" "latest-projects-") ].

(** The loop of [update_file] over the replacements (l.36-38). *)
Definition update_content (content : bytes) : bytes :=
  foldl (λ c r, re_sub r.1 r.2 c) content REPLACEMENTS.

(** What a text-mode [read] does to the line ends: [\r\n] and [\r]
    become [\n]. *)
Fixpoint universal_newlines (b : bytes) : bytes :=
  match b with
  | [] => []
  | c :: rest =>
      if decide (c = Byte.x0d) then
        match rest with
        | Byte.x0a :: rest' => Byte.x0a :: universal_newlines rest'
        | _ => Byte.x0a :: universal_newlines rest
        end
      else c :: universal_newlines rest
  end.

(** [open(filepath, 'r', encoding='utf-8').read()], for a page that is
    valid UTF-8. *)
Definition read_text (fs : FS) (p : path) : result bytes :=
  match files fs !! p with
  | Some b => Ok (universal_newlines b)
  | None => Raise FileNotFoundError
  end.

(** [update_project_paths.update_file]: the page is written back only
    when the replacements changed it; the result tells whether they
    did.  The line end of the platform is [\n]. *)
Definition update_file (filepath : path) (fs : FS) : result (FS * bool) :=
  match read_text fs filepath with
  | Raise e => Raise e
  | Ok original_content =>
      let content := update_content original_content in
      if decide (content ≠ original_content)
      then Ok (write_file filepath content fs, true)
      else Ok (fs, false)
  end.

(** The replacements of [fix_volunteering_paths.fix_paths] (l.24-30). *)
Definition fix_content (content : bytes) : bytes :=
  let content := re_sub (attr "href" "assets/") (attr "href" "../assets/") content in
  let content := re_sub (attr "src" "assets/") (attr "src" "../assets/") content in
  let content := re_sub (attr "data" "assets/") (attr "data" "../assets/") content in
  let content := re_sub (attr "href" "index.html") (attr "href" "../index.html") content in
  re_sub (text "../../") (text "../") content.

(** [fix_volunteering_paths.fix_paths] *)
Definition fix_paths (filepath : path) (fs : FS) : result (FS * bool) :=
  match read_text fs filepath with
  | Raise e => Raise e
  | Ok original =>
      let content := fix_content original in
      if decide (content ≠ original)
      then Ok (write_file filepath content fs, true)
      else Ok (fs, false)
  end.
(** The four patterns that the two scripts replace. *)
Definition path_patterns : list bytes :=
  [attr "href" "assets/"; attr "src" "assets/"; attr "data" "assets/";
   attr "href" "index.html"].

(** A page in which no path is left to prefix. *)
Definition paths_fixed (s : bytes) : Prop :=
  Forall (λ q, ¬ occurs q s) path_patterns.

(** The first four replacements, one after the other. *)
Definition prefix_paths (s : bytes) : bytes :=
  re_sub (attr "href" "index.html") (attr "href" "../index.html")
    (re_sub (attr "data" "assets/") (attr "data" "../assets/")
       (re_sub (attr "src" "assets/") (attr "src" "../assets/")
          (re_sub (attr "href" "assets/") (attr "href" "../assets/") s))).
(** Whether [pattern] occurs in [s], as a test. *)
Fixpoint occursb {A} `{EqDecision A} (pattern s : list A) : bool :=
  match s with
  | [] => bool_decide (pattern = [])
  | _ :: s' => bool_decide (pattern `prefix_of` s) || occursb pattern s'
  end.
(** A path that is below none of the three roots. *)
Definition outside_roots (x : path) : Prop :=
  below IMG_DIR x = false ∧ below BACKUP_DIR x = false ∧ below WEBP_DIR x = false.

(** ** A small codec, to run the pipeline on concrete files

    A file is a mode byte followed by its pixels; every image is 64x48.
    The JPEG encoder halves the pixels below quality 100, keeps them at
    100 and above, and fails below 1, leaving a one-byte partial file; the
    PNG encoder halves them; the WebP encoder keeps a quarter and fails
    below quality 1. *)
Module Toy.
Definition mode_of (b : Byte.byte) : option Mode :=
  match b with
  | Byte.x00 => Some Mode_RGB
  | Byte.x01 => Some Mode_RGBA
  | Byte.x02 => Some Mode_P
  | Byte.x03 => Some Mode_L
  | Byte.x04 => Some Mode_LA
  | _ => None
  end.

Definition code_of (m : Mode) : Byte.byte :=
  match m with
  | Mode_RGB => Byte.x00
  | Mode_RGBA => Byte.x01
  | Mode_P => Byte.x02
  | Mode_L => Byte.x03
  | Mode_LA => Byte.x04
  | _ => Byte.x05
  end.

Definition decode (b : bytes) : option (Image bytes) :=
  match b with
  | [] => None
  | h :: pixels => m ← mode_of h; Some (mkImage 64 48 m 1 pixels)
  end.

Definition half (b : bytes) : bytes := take (length b / 2)%nat b.

Definition encode_jpeg (img : Image bytes) (quality : Z) (_ _ : bool) : save_result :=
  if quality <? 1 then SaveFailed (Some [Byte.xff])
  else if 100 <=? quality then Saved (code_of (mode img) :: raster img)
  else Saved (code_of (mode img) :: half (raster img)).

Definition encode_png (img : Image bytes) (_ : bool) : save_result :=
  Saved (code_of (mode img) :: half (raster img)).

Definition encode_webp (img : Image bytes) (quality _ : Z) : save_result :=
  if quality <? 1 then SaveFailed None
  else Saved (code_of (mode img) :: half (half (raster img))).

Definition codec : Codec :=
  mkCodec bytes decode (λ _ _ r, r) (λ _ _ r, r) (λ _ r, r) Some
          encode_jpeg encode_png encode_webp eq_refl.

(** Files of the examples: a mode byte and [n] pixels. *)
Definition file (h : Byte.byte) (n : nat) : bytes := h :: replicate n Byte.x07.

Definition disk (l : list (path * bytes)) : FS := mkFS (list_to_map l) ∅.

Definition img (name : string) : path := IMG_DIR ++ [name].

(** The configuration of the examples: files of 4 bytes and more are
    worked on, at the given JPEG quality. *)
Definition config (quality : Z) : Config :=
  mkConfig quality 80 1920 1080 [400; 800] (1 # 10)%Q 4
           [".jpg"; ".jpeg"; ".png"; ".gif"]%string.
End Toy.

(** * Properties *)

(** ** Paths *)

Lemma length_lower s : String.length (lower s) = String.length s.
Proof. induction s as [|c s IH]; simpl; [done | by f_equal]. Qed.

Lemma length_append s1 s2 :
  String.length (String.append s1 s2) = (String.length s1 + String.length s2)%nat.
Proof. induction s1 as [|c s1 IH]; simpl; [done | by f_equal]. Qed.

Lemma length_substring n m s :
  (n + m ≤ String.length s)%nat → String.length (String.substring n m s) = m.
Proof.
  revert n m. induction s as [|c s IH]; intros n m Hle; simpl in *.
  - destruct n, m; simpl; lia.
  - destruct n as [|n]; [destruct m as [|m]; simpl; [done|] |].
    + f_equal. apply IH. lia.
    + apply IH. lia.
Qed.

Lemma rfind_dot_lt s i : rfind_dot s = Some i → (i < String.length s)%nat.
Proof.
  revert i. induction s as [|c s IH]; intros i; simpl; [done|].
  destruct (rfind_dot s) as [j|].
  - intros [= <-]. specialize (IH j eq_refl). lia.
  - destruct (Ascii.eqb _ _); intros [= <-]. lia.
Qed.

Lemma length_name_suffix name :
  (String.length (name_suffix name) ≤ String.length name)%nat.
Proof.
  unfold name_suffix. destruct (rfind_dot name) as [i|] eqn:Hi; simpl; [|lia].
  apply rfind_dot_lt in Hi.
  destruct (_ && _); simpl; [|lia].
  rewrite length_substring; lia.
Qed.

(** The temporary name is four characters longer than the name. *)
Lemma length_temp_name name :
  String.length
    (name_with_suffix name (String.append ".opt" (lower (name_suffix name))))
  = (String.length name + 4)%nat.
Proof.
  unfold name_with_suffix. pose proof (length_name_suffix name).
  rewrite !length_append, length_lower, length_substring by lia.
  simpl. lia.
Qed.

Lemma with_suffix_Some p sfx t :
  with_suffix p sfx = Some t →
  path_name p ≠ EmptyString ∧ p = parent p ++ [path_name p] ∧
  t = parent p ++ [name_with_suffix (path_name p) sfx].
Proof.
  unfold with_suffix. case_decide; [done|]. intros [= <-].
  split; [done|]. split; [|done].
  unfold parent, path_name. apply app_removelast_last.
  intros ->. by simpl in *.
Qed.

(** The temporary file of an image is never the image itself. *)
Lemma temp_path_ne p t :
  with_suffix p (String.append ".opt" (lower (path_suffix p))) = Some t → t ≠ p.
Proof.
  unfold path_suffix. intros (_ & Hp & ->)%with_suffix_Some Heq.
  revert Hp Heq. generalize (path_name p) (parent p). intros n d -> Heq.
  apply app_inv_head in Heq. injection Heq as Heq.
  apply (f_equal String.length) in Heq.
  rewrite length_temp_name in Heq. lia.
Qed.

Lemma relative_to_Some p root rel :
  relative_to p root = Some rel ↔ p = root ++ rel.
Proof.
  revert p. induction root as [|r root IH]; intros p; simpl.
  - split; [by intros [= ->] | by intros ->].
  - destruct p as [|c p]; [done|]. case_decide as Hc.
    + subst c. rewrite IH. split; [by intros -> | by intros [= ->]].
    + split; [done | by intros [= ? _]].
Qed.


Lemma below_spec root p :
  below root p = true ↔ ∃ c rel, p = root ++ c :: rel.
Proof.
  unfold below. destruct (relative_to p root) as [[|c rel]|] eqn:Hrel.
  - apply relative_to_Some in Hrel. split; [done|].
    intros (c & rel & ->). by apply app_inv_head in Hrel.
  - apply relative_to_Some in Hrel. split; [eauto|done].
  - split; [done|]. intros (c & rel & ->).
    by rewrite (proj2 (relative_to_Some _ _ _) eq_refl) in Hrel.
Qed.

Lemma below_relative_to root p :
  below root p = true → ∃ c rel, relative_to p root = Some (c :: rel) ∧ p = root ++ c :: rel.
Proof.
  intros (c & rel & ->)%below_spec. exists c, rel. split; [|done].
  by apply relative_to_Some.
Qed.

(** The three roots are siblings: a path below one is below no other. *)
Lemma img_not_backup p rel : below IMG_DIR p = true → p ≠ BACKUP_DIR ++ rel.
Proof. intros (c & r & ->)%below_spec. by intros [= ?]. Qed.

Lemma img_not_webp p rel : below IMG_DIR p = true → p ≠ WEBP_DIR ++ rel.
Proof. intros (c & r & ->)%below_spec. by intros [= ?]. Qed.

Lemma backup_not_webp p rel : below BACKUP_DIR p = true → p ≠ WEBP_DIR ++ rel.
Proof. intros (c & r & ->)%below_spec. by intros [= ?]. Qed.

Lemma backup_not_img p : below BACKUP_DIR p = true → below IMG_DIR p = false.
Proof.
  intros (c & r & ->)%below_spec. destruct (below IMG_DIR _) eqn:Hb; [|done].
  by apply below_spec in Hb as (? & ? & [= ?]).
Qed.

Lemma webp_not_img p : below WEBP_DIR p = true → below IMG_DIR p = false.
Proof.
  intros (c & r & ->)%below_spec. destruct (below IMG_DIR _) eqn:Hb; [|done].
  by apply below_spec in Hb as (? & ? & [= ?]).
Qed.

(** A file derived from an image by a change of suffix stays in the
    directory of the image. *)
Lemma with_suffix_below root p sfx t :
  below root p = true → with_suffix p sfx = Some t → below root t = true.
Proof.
  intros (c & rel & ->)%below_spec (_ & _ & ->)%with_suffix_Some.
  apply below_spec. unfold parent.
  rewrite removelast_app by done. rewrite <- app_assoc.
  destruct (removelast (c :: rel) ++ [name_with_suffix (path_name (root ++ c :: rel)) sfx])
    as [|c' rel'] eqn:Hl; [by destruct (removelast (c :: rel))|]. eauto.
Qed.

Lemma path_name_app root c rel : path_name (root ++ c :: rel) = path_name (c :: rel).
Proof.
  unfold path_name. induction root as [|r root IH]; [done|].
  simpl. destruct (root ++ c :: rel) eqn:Hl; [by destruct root|]. done.
Qed.

(** ** Steps on the file system *)

(** Inclusions between explicit lists of paths. *)
Ltac sub_paths :=
  let q := fresh "q" in
  intros q; rewrite ?elem_of_cons, ?elem_of_nil; tauto.

Lemma agree_off_refl qs fs : agree_off qs fs fs.
Proof. by intros q _. Qed.

Lemma agree_off_trans qs1 qs2 qs fs1 fs2 fs3 :
  agree_off qs1 fs1 fs2 → agree_off qs2 fs2 fs3 →
  qs1 ⊆ qs → qs2 ⊆ qs → agree_off qs fs1 fs3.
Proof.
  intros H1 H2 Hs1 Hs2 q Hq. rewrite H2, H1; [done| |]; intros ?; apply Hq; auto.
Qed.

Lemma agree_off_write p b fs : agree_off [p] fs (write_file p b fs).
Proof.
  intros q Hq. simpl. apply lookup_insert_ne. intros ->. apply Hq. constructor.
Qed.

Lemma agree_off_unlink p fs : agree_off [p] fs (unlink p fs).
Proof.
  intros q Hq. simpl. apply lookup_delete_ne. intros ->. apply Hq. constructor.
Qed.

Lemma agree_off_mkdir d fs : agree_off [] fs (mkdir_p d fs).
Proof. by intros q _. Qed.

Lemma agree_off_copy2 src dst fs : agree_off [dst] fs (copy2 src dst fs).
Proof.
  unfold copy2. destruct (files fs !! src);
    [apply agree_off_write | apply agree_off_refl].
Qed.

Lemma agree_off_move src dst fs : agree_off [src; dst] fs (move src dst fs).
Proof.
  unfold move. destruct (files fs !! src); [|apply agree_off_refl].
  eapply agree_off_trans;
    [apply agree_off_write | apply agree_off_unlink | sub_paths..].
Qed.

Lemma agree_off_save_to p r fs fs' ok :
  save_to p r fs = (fs', ok) → agree_off [p] fs fs'.
Proof.
  destruct r as [b|[b|]]; intros [= <- <-];
    auto using agree_off_write, agree_off_refl.
Qed.

Lemma save_to_true p r fs fs' :
  save_to p r fs = (fs', true) → ∃ b, r = Saved b ∧ fs' = write_file p b fs.
Proof. destruct r as [b|[b|]]; intros [= <-]; eauto. Qed.

Lemma save_to_dirs p r fs fs' ok : save_to p r fs = (fs', ok) → dirs fs' = dirs fs.
Proof. by destruct r as [b|[b|]]; intros [= <- <-]. Qed.

Lemma exists_file_true fs p : exists_file fs p = true ↔ is_Some (files fs !! p).
Proof. unfold exists_file. apply bool_decide_eq_true. Qed.

Lemma exists_file_false fs p : exists_file fs p = false ↔ files fs !! p = None.
Proof.
  unfold exists_file. rewrite bool_decide_eq_false. by rewrite eq_None_not_Some.
Qed.

Section Steps.
Context (codec : Codec).

(** The optimizers write the output path and nothing else; when they
    succeed the output file is there. *)
Lemma optimize_jpeg_frame p t q mw mh fs fs1 ok :
  optimize_jpeg codec p t q mw mh fs = (fs1, ok) →
  agree_off [t] fs fs1 ∧ dirs fs1 = dirs fs ∧ (ok = true → is_Some (files fs1 !! t)).
Proof.
  unfold optimize_jpeg. intros H.
  destruct (open_image codec fs p) as [img|];
    [destruct (jpeg_prepare codec img mw mh) as [out|] |].
  - split_and!; [by eapply agree_off_save_to | by eapply save_to_dirs |].
    intros ->. apply save_to_true in H as (b & _ & ->). simpl.
    rewrite lookup_insert_eq. eauto.
  - injection H as <- <-. split_and!; [apply agree_off_refl | done..].
  - injection H as <- <-. split_and!; [apply agree_off_refl | done..].
Qed.

Lemma optimize_png_frame p t mw mh fs fs1 ok :
  optimize_png codec p t mw mh fs = (fs1, ok) →
  agree_off [t] fs fs1 ∧ dirs fs1 = dirs fs ∧ (ok = true → is_Some (files fs1 !! t)).
Proof.
  assert (Hsave : ∀ r fs fs1 ok, save_to t r fs = (fs1, ok) →
    agree_off [t] fs fs1 ∧ dirs fs1 = dirs fs ∧ (ok = true → is_Some (files fs1 !! t))).
  { intros r fs0 fs0' ok0 H.
    split_and!; [by eapply agree_off_save_to | by eapply save_to_dirs |].
    intros ->. apply save_to_true in H as (b & _ & ->). simpl.
    rewrite lookup_insert_eq. eauto. }
  unfold optimize_png. intros H.
  destruct (open_image codec fs p) as [img0|];
    [destruct (resize_if_large codec img0 mw mh) as [img|] |];
    [|injection H as <- <-; split_and!; [apply agree_off_refl | done..]..].
  repeat case_bool_decide; eauto.
  destruct (quantize codec img) as [img_p|]; eauto.
  destruct (save_to t (encode_png codec img_p true) fs) as [fs' [|]] eqn:Hsv.
  - injection H as <- <-. eauto.
  - apply Hsave in Hsv as (A1 & D1 & _). apply Hsave in H as (A2 & D2 & E2).
    split_and!; [|congruence|done].
    eapply agree_off_trans; eauto.
Qed.

Lemma optimize_frame config sfx p t fs fs1 ok :
  optimize codec config sfx p t fs = (fs1, ok) →
  agree_off [t] fs fs1 ∧ dirs fs1 = dirs fs ∧ (ok = true → is_Some (files fs1 !! t)).
Proof.
  unfold optimize. repeat case_bool_decide.
  - apply optimize_jpeg_frame.
  - apply optimize_png_frame.
  - intros [= <- <-]. split_and!; [apply agree_off_refl | done..].
Qed.

Lemma create_webp_frame p w q fs fs1 ok :
  create_webp codec p w q fs = (fs1, ok) →
  agree_off [w] fs fs1 ∧ dirs fs1 = dirs fs.
Proof.
  unfold create_webp. destruct (open_image codec fs p) as [img|].
  - intros H. split; [by eapply agree_off_save_to | by eapply save_to_dirs].
  - intros [= <- <-]. split; [apply agree_off_refl | done].
Qed.

Lemma backup_original_frame p b fs : agree_off [b] fs (backup_original p b fs).
Proof.
  unfold backup_original. destruct (exists_file _ _).
  - intros q _. done.
  - eapply agree_off_trans;
      [apply agree_off_mkdir | apply agree_off_copy2 | sub_paths..].
Qed.

(** An existing backup is left alone. *)
Lemma backup_original_kept p b fs content :
  files fs !! b = Some content →
  files (backup_original p b fs) !! b = Some content.
Proof.
  intros Hb. unfold backup_original.
  rewrite (proj2 (exists_file_true (mkdir_p (parent b) fs) b)); [done|].
  simpl. rewrite Hb. eauto.
Qed.

(** A missing backup is made from the file. *)
Lemma backup_original_made p b fs content :
  files fs !! b = None → files fs !! p = Some content →
  files (backup_original p b fs) !! b = Some content.
Proof.
  intros Hb Hp. unfold backup_original.
  rewrite (proj2 (exists_file_false (mkdir_p (parent b) fs) b)) by done.
  unfold copy2. simpl. rewrite Hp. simpl. apply lookup_insert_eq.
Qed.
End Steps.

(** ** The stages of [process_image] *)

Lemma image_path_paths p :
  image_path p →
  ∃ rel t w,
    relative_to p IMG_DIR = Some rel ∧ temp_path p = Some t ∧
    with_suffix rel ".webp" = Some w ∧
    below IMG_DIR t = true ∧ t ≠ p.
Proof.
  intros [Hb Hn]. destruct (below_relative_to _ _ Hb) as (c & rel & Hrel & Hp).
  assert (∃ t, temp_path p = Some t) as [t Ht].
  { unfold temp_path, with_suffix. case_decide; [done | eauto]. }
  assert (∃ w, with_suffix (c :: rel) ".webp" = Some w) as [w Hw].
  { unfold with_suffix. case_decide as Hc; [|eauto].
    rewrite Hp, path_name_app in Hn. done. }
  exists (c :: rel), t, w. split_and!; try done.
  - by eapply with_suffix_below.
  - by eapply temp_path_ne.
Qed.

Lemma savings_complement original new :
  0 < original →
  (savings original new == 1 - inject_Z new / inject_Z original)%Q.
Proof.
  intros Ho. unfold savings. unfold Z.sub. rewrite inject_Z_plus, inject_Z_opp.
  field. intros H. apply (Qeq_bool_neq (inject_Z original) 0); [|done].
  unfold Qeq_bool, inject_Z. simpl. apply Z.eqb_neq. lia.
Qed.

(** The test of l.245, in the words of the specification: the saving is
    below the minimum exactly when the ratio of the sizes is above
    [1 - min_savings]. *)
Lemma savings_below_min (m : Q) original new :
  0 < original →
  ¬ (m <= savings original new)%Q ↔
  (1 - m < inject_Z new / inject_Z original)%Q.
Proof.
  intros Ho. rewrite (savings_complement _ _ Ho).
  generalize (inject_Z new / inject_Z original)%Q. intros x. split.
  - intros H%Qnot_le_lt. lra.
  - intros H. apply Qlt_not_le. lra.
Qed.

Section Stages.
Context (codec : Codec).

Lemma getsize_pos (content : bytes) :
  is_Some (decode codec content) → 0 < getsize content.
Proof.
  destruct content; [|unfold getsize; simpl; lia].
  rewrite (decode_nil codec). by intros [? ?].
Qed.

Lemma replace_stage_replaced config p t rel original out fs st :
  files fs !! t = Some out → 0 < original →
  (min_savings config <= savings original (getsize out))%Q →
  relative_to p IMG_DIR = Some rel →
  replace_stage config p t original true fs st =
    (move t p (backup_original p (BACKUP_DIR ++ rel) fs),
     incr_processed (add_new (getsize out) st), None).
Proof.
  intros Ht Ho Hs%Qle_bool_iff Hrel. unfold replace_stage.
  rewrite Ht, Hs, Hrel. by destruct (Z.eqb_spec original 0); [lia|].
Qed.

Lemma replace_stage_kept config p t original out fs st :
  files fs !! t = Some out → 0 < original →
  ¬ (min_savings config <= savings original (getsize out))%Q →
  replace_stage config p t original true fs st =
    (unlink t fs, incr_skipped (add_new original st), None).
Proof.
  intros Ht Ho Hs. unfold replace_stage. rewrite Ht.
  destruct (Z.eqb_spec original 0); [lia|].
  destruct (Qle_bool _ _) eqn:Hq; [|done].
  by apply Qle_bool_iff in Hq.
Qed.

Lemma replace_stage_failed config p t original fs st :
  replace_stage config p t original false fs st =
    (if exists_file fs t then unlink t fs else fs, add_new original st, None).
Proof.
  unfold replace_stage, exists_file.
  destruct (files fs !! t) eqn:Ht.
  - by rewrite bool_decide_eq_true_2 by eauto.
  - rewrite bool_decide_eq_false_2; [done|]. by intros [? ?].
Qed.

(** After the decision the temporary file is gone, whatever was decided;
    only the image, its backup and the temporary file can have changed. *)
Lemma replace_stage_frame config p t rel original ok fs st fs2 st2 e :
  relative_to p IMG_DIR = Some rel →
  replace_stage config p t original ok fs st = (fs2, st2, e) →
  agree_off [t; p; BACKUP_DIR ++ rel] fs fs2.
Proof.
  intros Hrel. unfold replace_stage. rewrite Hrel.
  destruct (files fs !! t) as [out|]; [destruct ok|];
    repeat (case_match; simplify_eq); intros [= <- <- <-];
    try apply agree_off_refl.
  - eapply agree_off_trans;
      [apply backup_original_frame | apply agree_off_move | sub_paths..].
  - eapply agree_off_trans;
      [apply agree_off_unlink | apply agree_off_refl | sub_paths..].
  - eapply agree_off_trans;
      [apply agree_off_unlink | apply agree_off_refl | sub_paths..].
Qed.

Lemma webp_stage_run config p rel w fs st :
  relative_to p IMG_DIR = Some rel → with_suffix rel ".webp" = Some w →
  ∃ fs3 ok,
    create_webp codec p (WEBP_DIR ++ w) (webp_quality config)
      (mkdir_p (parent (WEBP_DIR ++ w)) fs) = (fs3, ok) ∧
    webp_stage codec config p fs st = (fs3, if ok then incr_webp st else st, None) ∧
    agree_off [WEBP_DIR ++ w] fs fs3.
Proof.
  intros Hrel Hw. unfold webp_stage. rewrite Hrel, Hw.
  destruct (create_webp _ _ _ _ _) as [fs3 ok] eqn:Hc.
  exists fs3, ok. split; [done|]. split; [by destruct ok|].
  apply create_webp_frame in Hc as [Hc _].
  eapply agree_off_trans; [apply agree_off_mkdir | apply Hc | sub_paths..].
Qed.
End Stages.

Section Process.
Context (codec : Codec).

Lemma replace_stage_no_exn config p t rel original ok fs st :
  0 < original → relative_to p IMG_DIR = Some rel →
  ∃ fs2 st2, replace_stage config p t original ok fs st = (fs2, st2, None).
Proof.
  intros Ho Hrel. unfold replace_stage. rewrite Hrel.
  destruct (Z.eqb_spec original 0); [lia|].
  repeat case_match; eauto.
Qed.

(** A readable image that is large enough goes, outside a dry run,
    through the three stages, and none of them raises. *)
Lemma process_image_stages config p content fs st :
  image_path p → files fs !! p = Some content →
  skip_small config ≤ getsize content → is_Some (decode codec content) →
  ∃ rel t w fs1 ok fs2 st2 fs3 ok',
    relative_to p IMG_DIR = Some rel ∧ temp_path p = Some t ∧
    with_suffix rel ".webp" = Some w ∧
    optimize codec config (lower (path_suffix p)) p t fs = (fs1, ok) ∧
    replace_stage config p t (getsize content) ok fs1
      (add_original (getsize content) st) = (fs2, st2, None) ∧
    create_webp codec p (WEBP_DIR ++ w) (webp_quality config)
      (mkdir_p (parent (WEBP_DIR ++ w)) fs2) = (fs3, ok') ∧
    agree_off [WEBP_DIR ++ w] fs2 fs3 ∧
    process_image codec config p false fs st =
      Ok (fs3, if ok' then incr_webp st2 else st2).
Proof.
  intros Hp Hc Hsz Hdec.
  destruct (image_path_paths p Hp) as (rel & t & w & Hrel & Ht & Hw & _ & _).
  destruct (optimize codec config (lower (path_suffix p)) p t fs)
    as [fs1 ok] eqn:Hopt.
  destruct (replace_stage_no_exn config p t rel (getsize content) ok fs1
              (add_original (getsize content) st) (getsize_pos codec _ Hdec) Hrel)
    as (fs2 & st2 & Hrep).
  destruct (webp_stage_run codec config p rel w fs2 st2 Hrel Hw)
    as (fs3 & ok' & Hcw & Hws & Hag).
  exists rel, t, w, fs1, ok, fs2, st2, fs3, ok'. split_and!; try done.
  unfold process_image, get_image_info. rewrite Hc. simpl.
  destruct (Z.ltb_spec (getsize content) (skip_small config)); [lia|].
  destruct Hdec as [img Himg]. rewrite Himg. simpl.
  unfold temp_path in Ht. rewrite Ht.
  unfold try_body. rewrite Hopt, Hrep, Hws. done.
Qed.
End Process.

Lemma move_lookup src dst b fs :
  files fs !! src = Some b → src ≠ dst →
  files (move src dst fs) !! dst = Some b ∧ files (move src dst fs) !! src = None.
Proof.
  intros Hs Hne. unfold move. rewrite Hs. simpl. split.
  - rewrite lookup_delete_ne by done. apply lookup_insert_eq.
  - apply lookup_delete_eq.
Qed.

Lemma not_elem_of_1 (q a : path) : q ≠ a → q ∉ [a].
Proof. intros Hne Hin. apply list_elem_of_singleton in Hin. done. Qed.

Section Replace.
Context (codec : Codec).

(** C1.  For a file whose re-encoding succeeded, [process_image] counts
    the file as processed, and puts the re-encoded bytes in its place,
    if and only if the fractional saving reaches [min_savings]; below
    the minimum, which is when the ratio of the new size to the
    original one exceeds [1 - min_savings], the re-encoded file is
    removed, the original keeps its content and the file is counted as
    skipped. *)
Theorem replace_iff_min_savings config p content fs st t fs1 out :
  image_path p → files fs !! p = Some content →
  skip_small config ≤ getsize content → is_Some (decode codec content) →
  temp_path p = Some t →
  optimize codec config (lower (path_suffix p)) p t fs = (fs1, true) →
  files fs1 !! t = Some out →
  ∃ fs' st',
    process_image codec config p false fs st = Ok (fs', st') ∧
    let s := savings (getsize content) (getsize out) in
    (processed st' = processed st + 1 ↔ (min_savings config <= s)%Q) ∧
    ((min_savings config <= s)%Q →
       files fs' !! p = Some out ∧ skipped st' = skipped st ∧
       new_size st' = new_size st + getsize out) ∧
    (¬ (min_savings config <= s)%Q →
       files fs' !! p = Some content ∧ files fs' !! t = None ∧
       processed st' = processed st ∧ skipped st' = skipped st + 1 ∧
       new_size st' = new_size st + getsize content) ∧
    (¬ (min_savings config <= s)%Q ↔
       (1 - min_savings config < inject_Z (getsize out) / inject_Z (getsize content))%Q).
Proof.
  intros Hp Hc Hsz Hdec Ht Hopt Hout.
  destruct (process_image_stages codec config p content fs st Hp Hc Hsz Hdec)
    as (rel & t' & w & fs1' & ok & fs2 & st2 & fs3 & ok' &
        Hrel & Ht' & Hw & Hopt' & Hrep & _ & Hag & Hrun).
  rewrite Ht in Ht'. injection Ht' as <-.
  rewrite Hopt in Hopt'. injection Hopt' as <- <-.
  pose proof (getsize_pos codec _ Hdec) as Hpos.
  destruct (image_path_paths p Hp) as (? & ? & ? & Hrel' & Ht' & _ & Htb & Htp).
  rewrite Ht in Ht'. injection Ht' as <-. destruct Hp as [Hpb _].
  apply optimize_frame in Hopt as (Hag1 & _ & _).
  assert (Hp1 : files fs1 !! p = Some content).
  { rewrite Hag1; [done|]. apply not_elem_of_1. done. }
  exists fs3, (if ok' then incr_webp st2 else st2). split; [done|].
  assert (Hwp : p ∉ [WEBP_DIR ++ w]) by (apply not_elem_of_1; by apply img_not_webp).
  assert (Hwt : t ∉ [WEBP_DIR ++ w]) by (apply not_elem_of_1; by apply img_not_webp).
  destruct (Qle_bool (min_savings config) (savings (getsize content) (getsize out)))
    eqn:Hq.
  - apply Qle_bool_iff in Hq.
    rewrite (replace_stage_replaced config p t rel _ out) in Hrep by done.
    injection Hrep as <- <-.
    assert (Hbt : files (backup_original p (BACKUP_DIR ++ rel) fs1) !! t = Some out).
    { rewrite backup_original_frame; [done|].
      apply not_elem_of_1. by apply img_not_backup. }
    destruct (move_lookup t p out _ Hbt Htp) as [Hmp _].
    cbv zeta. split_and!.
    + split; [done|]. intros _. by destruct ok'.
    + intros _. rewrite (Hag p Hwp). split; [done|]. by destruct ok'; simpl.
    + intros Hn. done.
    + by apply savings_below_min.
  - assert (Hn : ¬ (min_savings config <= savings (getsize content) (getsize out))%Q).
    { intros Hle%Qle_bool_iff. congruence. }
    rewrite (replace_stage_kept config p t _ out) in Hrep by done.
    injection Hrep as <- <-.
    cbv zeta. split_and!.
    + split; [|done]. destruct ok'; simpl; lia.
    + intros Hle. done.
    + intros _. rewrite (Hag p Hwp), (Hag t Hwt). simpl.
      rewrite lookup_delete_ne by done. rewrite lookup_delete_eq.
      split_and!; try done; by destruct ok'; simpl.
    + by apply savings_below_min.
Qed.

End Replace.

(** ** Backups *)

Section Backups.
Context (codec : Codec).

Lemma below_backup_ne_img q t :
  below BACKUP_DIR q = true → below IMG_DIR t = true → q ≠ t.
Proof. intros Hq Ht ->. apply backup_not_img in Hq. congruence. Qed.

(** The decision stage leaves every existing file of the backup root as
    it is. *)
Lemma replace_stage_keeps_backups config p t original ok fs st fs2 st2 e q b :
  below IMG_DIR p = true → below IMG_DIR t = true →
  below BACKUP_DIR q = true → files fs !! q = Some b →
  replace_stage config p t original ok fs st = (fs2, st2, e) →
  files fs2 !! q = Some b.
Proof.
  intros Hp Ht Hq Hb.
  pose proof (below_backup_ne_img q t Hq Ht) as Hqt.
  pose proof (below_backup_ne_img q p Hq Hp) as Hqp.
  unfold replace_stage.
  destruct (files fs !! t) as [out|] eqn:Hout; [destruct ok|];
    repeat (case_match; simplify_eq); intros [= <- <- <-]; try done.
  - rewrite agree_off_move.
    + destruct (decide (q = BACKUP_DIR ++ l)) as [->|Hne].
      * by apply backup_original_kept.
      * rewrite backup_original_frame; [done | by apply not_elem_of_1].
    + rewrite !elem_of_cons, elem_of_nil. tauto.
  - simpl. by rewrite lookup_delete_ne.
  - simpl. by rewrite lookup_delete_ne.
Qed.

Lemma webp_stage_frame config p fs st fs3 st3 e q :
  (∀ w, q ≠ WEBP_DIR ++ w) →
  webp_stage codec config p fs st = (fs3, st3, e) →
  files fs3 !! q = files fs !! q.
Proof.
  intros Hq. unfold webp_stage.
  destruct (relative_to p IMG_DIR) as [rel|]; [|by intros [= <- <- <-]].
  destruct (with_suffix rel ".webp") as [w|]; [|by intros [= <- <- <-]].
  destruct (create_webp _ _ _ _ _) as [fs' ok] eqn:Hc.
  apply create_webp_frame in Hc as [Hc _].
  assert (files fs' !! q = files fs !! q) as Hfs.
  { rewrite Hc; [done|]. apply not_elem_of_1, Hq. }
  by destruct ok; intros [= <- <- <-].
Qed.

(** No call of [process_image] on a file of the image root changes a
    file that exists below the backup root. *)
Lemma process_image_keeps_backups config p dry fs st fs' st' q b :
  below IMG_DIR p = true →
  below BACKUP_DIR q = true → files fs !! q = Some b →
  process_image codec config p dry fs st = Ok (fs', st') →
  files fs' !! q = Some b.
Proof.
  intros Hp Hq Hb. unfold process_image.
  destruct (files fs !! p) as [content|]; [|done].
  case_match; [by intros [= <- <-]|].
  destruct (get_image_info codec fs p); [|by intros [= <- <-]].
  destruct dry; [by intros [= <- <-]|].
  destruct (with_suffix p _) as [t|] eqn:Ht; [|done].
  assert (Htb : below IMG_DIR t = true) by (by eapply with_suffix_below).
  pose proof (below_backup_ne_img q t Hq Htb) as Hqt.
  unfold try_body.
  destruct (optimize _ _ _ _ _ _) as [fs1 ok] eqn:Hopt.
  apply optimize_frame in Hopt as (Hag & _ & _).
  assert (Hb1 : files fs1 !! q = Some b).
  { rewrite Hag; [done | by apply not_elem_of_1]. }
  destruct (replace_stage _ _ _ _ _ _ _) as [[fs2 st2] e] eqn:Hrep.
  eapply replace_stage_keeps_backups in Hrep; [|done..].
  assert (Hunl : ∀ fs0, files fs0 !! q = Some b →
    files (on_exception t fs0 st2).1 !! q = Some b).
  { intros fs0 H0. unfold on_exception. simpl.
    destruct (exists_file fs0 t); [|done]. simpl. by rewrite lookup_delete_ne. }
  destruct e as [e|].
  - intros [= <- <-]. by apply Hunl.
  - destruct (webp_stage _ _ _ _ _) as [[fs3 st3] e3] eqn:Hw.
    eapply webp_stage_frame in Hw; [|intros w; by apply backup_not_webp].
    rewrite <- Hw in Hrep.
    destruct e3; intros [= <- <-]; [|done].
    unfold on_exception. simpl.
    destruct (exists_file fs3 t); [|done]. simpl. by rewrite lookup_delete_ne.
Qed.

Lemma process_all_keeps_backups config dry images fs st fs' st' e q b :
  Forall (λ p, below IMG_DIR p = true) images →
  below BACKUP_DIR q = true → files fs !! q = Some b →
  process_all codec config dry images fs st = (fs', st', e) →
  files fs' !! q = Some b.
Proof.
  intros Himgs Hq. revert fs st.
  induction Himgs as [|p images Hp _ IH]; intros fs st Hb; simpl.
  - by intros [= <- <- <-].
  - destruct (process_image _ _ _ _ _ _) as [[fs1 st1]|] eqn:Hpi.
    + apply IH. by eapply process_image_keeps_backups.
    + by intros [= <- <- <-].
Qed.
End Backups.

(** ** The scan *)

Lemma elem_of_rglob fs root p :
  p ∈ rglob fs root ↔ is_Some (files fs !! p) ∧ below root p = true.
Proof.
  unfold rglob. rewrite list_elem_of_In, filter_In, <- list_elem_of_In.
  rewrite list_elem_of_fmap. split.
  - intros [([q b] & -> & Hin%elem_of_map_to_list) Hb]. simpl in *. eauto.
  - intros [[b Hb] Hbel]. split; [|done]. exists (p, b). split; [done|].
    by apply elem_of_map_to_list.
Qed.

Lemma elem_of_find_images fmts fs p :
  p ∈ find_images fmts fs ↔
  is_Some (files fs !! p) ∧ below IMG_DIR p = true ∧ lower (path_suffix p) ∈ fmts.
Proof.
  unfold find_images. rewrite list_elem_of_In, filter_In, <- list_elem_of_In.
  rewrite elem_of_rglob, bool_decide_eq_true. tauto.
Qed.


Lemma find_images_below fmts fs :
  Forall (λ p, below IMG_DIR p = true) (find_images fmts fs).
Proof. apply Forall_forall. by intros p (_ & Hb & _)%elem_of_find_images. Qed.

(** A file with a recognised suffix has a name. *)
Lemma recognised_image_path fmts fs p :
  EmptyString ∉ fmts → p ∈ find_images fmts fs → image_path p.
Proof.
  intros Hfmts (_ & Hb & Hs)%elem_of_find_images. split; [done|].
  intros Hn. unfold path_suffix in Hs. rewrite Hn in Hs. done.
Qed.

Section Runs.
Context (codec : Codec).

(** No run changes a file that exists below the backup root. *)
Lemma main_keeps_backups HAS_PIL args fs q b :
  below BACKUP_DIR q = true → files fs !! q = Some b →
  files (run_fs (main codec HAS_PIL args fs)) !! q = Some b.
Proof.
  intros Hq Hb.
  assert (Hopt : files (run_fs (optimize_all codec args fs)) !! q = Some b).
  { unfold optimize_all.
    destruct (process_all _ _ _ _ _ _) as [[fs2 st] e] eqn:Hall.
    eapply process_all_keeps_backups in Hall;
      [| apply find_images_below | done | done].
    by destruct e. }
  unfold main. destruct HAS_PIL; simpl; [|done].
  destruct (list_large args) as [kb|]; [|done].
  by destruct (kb =? 0).
Qed.
End Runs.

Section BackupOnce.
Context (codec : Codec).

(** C2, as amended.  When a file is replaced, the overwrite (the move of
    the temporary file onto the image) happens in a state [fs_b] where
    the image still has its original content and a backup exists at
    the mirrored path: the backup that was already there, or, when
    there was none, a copy of the original.  That backup is still
    there after the call, and every file that existed below the backup
    root before the call is unchanged by it. *)
Theorem backup_before_overwrite config p rel content fs st t fs1 out :
  image_path p → relative_to p IMG_DIR = Some rel →
  files fs !! p = Some content →
  skip_small config ≤ getsize content → is_Some (decode codec content) →
  temp_path p = Some t →
  optimize codec config (lower (path_suffix p)) p t fs = (fs1, true) →
  files fs1 !! t = Some out →
  (min_savings config <= savings (getsize content) (getsize out))%Q →
  let backup_path := BACKUP_DIR ++ rel in
  let kept := default content (files fs !! backup_path) in
  ∃ fs_b st_b fs' st',
    files fs_b !! p = Some content ∧
    files fs_b !! backup_path = Some kept ∧
    replace_stage config p t (getsize content) true fs1
      (add_original (getsize content) st) = (move t p fs_b, st_b, None) ∧
    webp_stage codec config p (move t p fs_b) st_b = (fs', st', None) ∧
    process_image codec config p false fs st = Ok (fs', st') ∧
    files fs' !! p = Some out ∧
    files fs' !! backup_path = Some kept ∧
    (∀ q b, below BACKUP_DIR q = true → files fs !! q = Some b →
            files fs' !! q = Some b).
Proof.
  intros Hp Hrel Hc Hsz Hdec Ht Hopt Hout Hsav backup_path kept.
  pose proof (getsize_pos codec _ Hdec) as Hpos.
  destruct (image_path_paths p Hp) as (rel' & t' & w & Hrel' & Ht' & Hw & Htb & Htp).
  rewrite Hrel in Hrel'. injection Hrel' as <-.
  rewrite Ht in Ht'. injection Ht' as <-.
  pose proof Hp as [Hpb _].
  pose proof Hopt as (Hag1 & _ & _)%optimize_frame.
  assert (Hp1 : files fs1 !! p = Some content).
  { rewrite Hag1; [done | by apply not_elem_of_1]. }
  assert (Hb1 : files fs1 !! backup_path = files fs !! backup_path).
  { apply Hag1, not_elem_of_1. intros Heq.
    apply (img_not_backup t rel Htb). by rewrite <- Heq. }
  set (fs_b := backup_original p backup_path fs1).
  set (st_b := incr_processed (add_new (getsize out)
                 (add_original (getsize content) st))).
  assert (Hrep : replace_stage config p t (getsize content) true fs1
            (add_original (getsize content) st) = (move t p fs_b, st_b, None)).
  { by apply replace_stage_replaced. }
  assert (Hbp : files fs_b !! p = Some content).
  { unfold fs_b. rewrite backup_original_frame; [done|].
    apply not_elem_of_1. by apply img_not_backup. }
  assert (Hbk : files fs_b !! backup_path = Some kept).
  { unfold fs_b, kept. rewrite <- Hb1.
    destruct (files fs1 !! backup_path) as [b0|] eqn:Hb0; simpl.
    - by apply backup_original_kept.
    - by apply backup_original_made. }
  assert (Hbt : files fs_b !! t = Some out).
  { unfold fs_b. rewrite backup_original_frame; [done|].
    apply not_elem_of_1. by apply img_not_backup. }
  destruct (webp_stage_run codec config p rel w (move t p fs_b) st_b Hrel Hw)
    as (fs3 & ok' & _ & Hws & Hag3).
  exists fs_b, st_b, fs3, (if ok' then incr_webp st_b else st_b).
  assert (Hrun : process_image codec config p false fs st =
                 Ok (fs3, if ok' then incr_webp st_b else st_b)).
  { unfold process_image, get_image_info. rewrite Hc. simpl.
    destruct (Z.ltb_spec (getsize content) (skip_small config)); [lia|].
    destruct Hdec as [img Himg]. rewrite Himg. simpl.
    unfold temp_path in Ht. rewrite Ht.
    unfold try_body. rewrite Hopt, Hrep, Hws. done. }
  split_and!; try done.
  - rewrite Hag3 by (apply not_elem_of_1; by apply img_not_webp).
    by apply move_lookup.
  - rewrite Hag3.
    + rewrite agree_off_move; [done|].
      rewrite !elem_of_cons, elem_of_nil.
      intros [Heq|[Heq|[]]].
      * apply (img_not_backup t rel Htb). by rewrite <- Heq.
      * apply (img_not_backup p rel Hpb). by rewrite <- Heq.
    + apply not_elem_of_1. unfold backup_path. by intros [= ?].
  - intros q b Hq Hb. by eapply process_image_keeps_backups.
Qed.
End BackupOnce.

(** ** Runs that write nothing *)

Section Early.
Context (codec : Codec).

(** In a dry run, and for every file that is too small or unreadable,
    [process_image] only counts. *)
Lemma process_image_early config p dry content fs st :
  files fs !! p = Some content →
  dry = true ∨ verdict codec config content ≠ Readable →
  process_image codec config p dry fs st =
    Ok (fs, early_stats (verdict codec config content) (getsize content) st).
Proof.
  intros Hc Hd. unfold process_image, get_image_info, verdict in *.
  rewrite Hc. simpl.
  destruct (getsize content <? skip_small config); [done|].
  destruct (decode codec content) as [img|]; simpl; [|done].
  by destruct Hd as [->|?].
Qed.

End Early.



Section DryRun.
Context (codec : Codec).


End DryRun.

(** ** The listing of large images *)










Section Listing.
Context (codec : Codec).

End Listing.

(** C10.  [--list-large 0] is the optimizing run: [main] does what it does
    without the option, and there are files that this run changes.  With
    a positive threshold [main] is the listing: it ends with status 0,
    prints a listing and no report, and leaves the file system as it
    was. *)
Theorem list_large_zero_optimizes :
  (∀ codec dry quality max_width fs,
     let r0 := main codec true (mkArgs dry quality max_width (Some 0)) fs in
     r0 = optimize_all codec (mkArgs dry quality max_width (Some 0)) fs ∧
     run_fs r0 = run_fs (main codec true (mkArgs dry quality max_width None) fs) ∧
     run_stats r0 = run_stats (main codec true (mkArgs dry quality max_width None) fs) ∧
     listing r0 = None) ∧
  (∃ codec fs p,
     files (run_fs (main codec true (mkArgs false 85 1920 (Some 0)) fs)) !! p
     ≠ files fs !! p) ∧
  (∀ codec dry quality max_width fs K,
     0 < K →
     let r := main codec true (mkArgs dry quality max_width (Some K)) fs in
     run_fs r = fs ∧ termination r = Exit 0 ∧ is_Some (listing r) ∧ report r = None).
Proof.
  split_and!.
  - intros codec dry quality max_width fs r0. unfold r0. split_and!; try done.
    unfold main, optimize_all. simpl.
    by destruct (process_all _ _ _ _ _ _) as [[? ?] [?|]].
  - exists Toy.codec, (Toy.disk [(Toy.img "a.jpg", Toy.file Byte.x00 (Z.to_nat 10240))]),
      (Toy.img "a.jpg").
    intros Heq. apply (f_equal (fmap length)) in Heq.
    vm_compute in Heq. discriminate Heq.
  - intros codec dry quality max_width fs K HK r. unfold r, main. simpl.
    destruct (Z.eqb_spec K 0); [lia|]. simpl. eauto.
Qed.

(** ** The JPEG optimizer *)

Lemma round_aspect_bounds num den key bound :
  0 < den → 0 ≤ num → 1 ≤ bound → num ≤ bound * den →
  1 ≤ round_aspect num den key ≤ bound.
Proof.
  intros Hden Hnum Hb Hle. unfold round_aspect.
  assert (num / den ≤ bound) by (apply Z.div_le_upper_bound; lia).
  assert (- (- num / den) ≤ bound).
  { assert (- bound ≤ - num / den); [|lia]. apply Z.div_le_lower_bound; lia. }
  destruct (key _ _); lia.
Qed.

(** The thumbnail of an image that exceeds the box fits in the box. *)
Lemma thumbnail_size_fits w h x y :
  0 < w → 0 < h → 0 < x → 0 < y → x < w ∨ y < h →
  1 ≤ (thumbnail_size w h x y).1 ≤ x ∧ 1 ≤ (thumbnail_size w h x y).2 ≤ y.
Proof.
  intros Hw Hh Hx Hy Hbig. unfold thumbnail_size.
  destruct (Z.leb_spec w x), (Z.leb_spec h y); simpl; try lia.
  all: destruct (Z.geb_spec (h * x) (w * y)); simpl.
  all: try (pose proof (round_aspect_bounds (y * w) h
              (λ n1 n2, Z.abs (w * y - n1 * h) <=? Z.abs (w * y - n2 * h)) x));
       try (pose proof (round_aspect_bounds (x * h) w
              (λ n1 n2, if n1 =? 0 then true else if n2 =? 0 then false
                 else Z.abs (w * n1 - x * h) * n2 <=? Z.abs (w * n2 - x * h) * n1) y)).
  all: nia.
Qed.

Section Jpeg.
Context (codec : Codec).

(** The call of the encoder in [optimize_jpeg]: the configured quality,
    [optimize=True] and [progressive=True]. *)
Lemma optimize_jpeg_save p t quality mw mh fs img out :
  open_image codec fs p = Some img →
  jpeg_prepare codec img mw mh = Some out →
  optimize_jpeg codec p t quality mw mh fs =
    save_to t (save_jpeg codec out quality true true) fs.
Proof. intros Hi Ho. unfold optimize_jpeg. by rewrite Hi, Ho. Qed.

(** An image that is written and came from a source with an alpha
    channel or a palette is opaque RGB. *)
Lemma jpeg_saved_opaque img mw mh out quality b :
  jpeg_prepare codec img mw mh = Some out →
  save_jpeg codec out quality true true = Saved b →
  has_alpha (mode img) || indexed (mode img) = true →
  mode out = Mode_RGB.
Proof.
  unfold jpeg_prepare, resize_if_large, thumbnail, exif_transpose, save_jpeg.
  intros Hprep Hsave Hsrc.
  destruct img as [w h m o r]. simpl in *.
  destruct m; simpl in *; try done;
    repeat (case_match; simplify_eq; simpl in *); done.
Qed.

(** The orientation tag is applied and removed. *)
Lemma jpeg_prepare_orientation img mw mh out :
  jpeg_prepare codec img mw mh = Some out →
  2 ≤ orientation img ≤ 8 → orientation out = 1.
Proof.
  unfold jpeg_prepare, resize_if_large, thumbnail, exif_transpose, convert.
  intros Hprep Ho. destruct img as [w h m o r]. simpl in *.
  repeat (case_match; simplify_eq; simpl in *); try done; lia.
Qed.

(** Without an exchange of the axes the written image fits in the box. *)
Lemma jpeg_prepare_fits img mw mh out :
  jpeg_prepare codec img mw mh = Some out →
  swaps_axes (orientation img) = false →
  mw < width img ∨ mh < height img →
  width out ≤ mw ∧ height out ≤ mh.
Proof.
  unfold jpeg_prepare. intros Hprep Hsw Hbig.
  set (img1 := if bool_decide (mode img = Mode_RGBA ∨ mode img = Mode_P)
               then convert codec Mode_RGB img else img) in Hprep.
  assert (Hsame : width img1 = width img ∧ height img1 = height img ∧
                  orientation img1 = orientation img).
  { unfold img1. by case_bool_decide. }
  destruct Hsame as (Hw1 & Hh1 & Ho1). clearbody img1.
  unfold resize_if_large, thumbnail in Hprep. rewrite Hw1, Hh1 in Hprep.
  assert (Hlarge : (mw <? width img) || (mh <? height img) = true).
  { apply orb_true_iff. destruct Hbig; [left|right]; by apply Z.ltb_lt. }
  rewrite Hlarge in Hprep.
  destruct ((0 <? width img) && (0 <? height img) && (0 <? mw) && (0 <? mh))
    eqn:Hpos; simpl in Hprep; [|done].
  apply andb_true_iff in Hpos as [[[?%Z.ltb_lt ?%Z.ltb_lt]%andb_true_iff
                                    ?%Z.ltb_lt]%andb_true_iff ?%Z.ltb_lt].
  pose proof (thumbnail_size_fits (width img) (height img) mw mh) as Hfit.
  injection Hprep as <-. unfold exif_transpose. simpl.
  rewrite Ho1, Hsw. destruct (_ && _); simpl; lia.
Qed.

(** C6, at the input where the code departs from it.  A 4000x3000
    image whose orientation tag is 6 is first fitted into 1920x1080,
    which gives 1440x1080, and then transposed: the image that is
    written is 1080x1440, taller than [max_height]. *)
Theorem rotated_jpeg_exceeds_max_height (r : Raster codec) :
  ∃ out,
    jpeg_prepare codec (mkImage 4000 3000 Mode_RGB 6 r)
      (max_width DEFAULT_CONFIG) (max_height DEFAULT_CONFIG) = Some out ∧
    width out = 1080 ∧ height out = 1440 ∧
    max_height DEFAULT_CONFIG < height out.
Proof. eexists. split; [reflexivity|]. by split_and!. Qed.
End Jpeg.

(** ** The WebP copy *)

Section Webp.
Context (codec : Codec).

Lemma webp_prepare_mode (img : image codec) :
  (has_alpha (mode img) || indexed (mode img) = true →
   has_alpha (mode (webp_prepare codec img)) = true) ∧
  (has_alpha (mode img) || indexed (mode img) = false →
   mode (webp_prepare codec img) = Mode_RGB).
Proof.
  unfold webp_prepare. destruct img as [w h m o r]. simpl.
  destruct m; simpl; split; intros Hm; try done;
    repeat case_bool_decide; simpl; try done; intuition congruence.
Qed.

Lemma replace_stage_stats config p t original ok fs st fs2 st2 e :
  replace_stage config p t original ok fs st = (fs2, st2, e) →
  errors st2 = errors st ∧ original_size st2 = original_size st ∧
  webp_created st2 = webp_created st ∧ dirs fs ⊆ dirs fs2.
Proof.
  unfold replace_stage, backup_original, move, copy2.
  repeat (case_match; simplify_eq); intros [= <- <- <-]; simpl;
    split_and!; try done; set_solver.
Qed.

(** C7.  Outside a dry run, for a readable image that is large enough,
    [process_image] ends with [create_webp], called on the file as the
    re-encoding left it, whether the optimizer succeeded or not ([ok])
    and whatever was decided about its output.  The encoder gets the
    image with its transparency (RGBA for a palette image) when the
    source has an alpha channel or a palette, and an RGB image
    otherwise, with [webp_quality] and method 6.  Whether the copy
    succeeds or not ([ok']) only shows in the WebP file and in
    [webp_created]. *)
Theorem webp_copy_attempted config p content fs st :
  image_path p → files fs !! p = Some content →
  skip_small config ≤ getsize content → is_Some (decode codec content) →
  ∃ rel w t fs1 ok fs2 st2 fs' ok',
    relative_to p IMG_DIR = Some rel ∧ with_suffix rel ".webp" = Some w ∧
    temp_path p = Some t ∧
    optimize codec config (lower (path_suffix p)) p t fs = (fs1, ok) ∧
    replace_stage config p t (getsize content) ok fs1
      (add_original (getsize content) st) = (fs2, st2, None) ∧
    create_webp codec p (WEBP_DIR ++ w) (webp_quality config)
      (mkdir_p (parent (WEBP_DIR ++ w)) fs2) = (fs', ok') ∧
    let st' := if ok' then incr_webp st2 else st2 in
    process_image codec config p false fs st = Ok (fs', st') ∧
    agree_off [WEBP_DIR ++ w] fs2 fs' ∧
    processed st' = processed st2 ∧ skipped st' = skipped st2 ∧
    errors st' = errors st2 ∧ errors st2 = errors st ∧
    original_size st' = original_size st2 ∧ new_size st' = new_size st2 ∧
    webp_created st' = webp_created st2 + (if ok' then 1 else 0) ∧
    (∀ img, open_image codec fs2 p = Some img →
       (fs', ok') =
         save_to (WEBP_DIR ++ w)
           (encode_webp codec (webp_prepare codec img) (webp_quality config) 6)
           (mkdir_p (parent (WEBP_DIR ++ w)) fs2) ∧
       (has_alpha (mode img) || indexed (mode img) = true →
        has_alpha (mode (webp_prepare codec img)) = true) ∧
       (has_alpha (mode img) || indexed (mode img) = false →
        mode (webp_prepare codec img) = Mode_RGB)).
Proof.
  intros Hp Hc Hsz Hdec.
  destruct (process_image_stages codec config p content fs st Hp Hc Hsz Hdec)
    as (rel & t & w & fs1 & ok & fs2 & st2 & fs3 & ok' &
        Hrel & Ht & Hw & Hopt & Hrep & Hcw & Hag & Hrun).
  exists rel, w, t, fs1, ok, fs2, st2, fs3, ok'.
  pose proof (replace_stage_stats _ _ _ _ _ _ _ _ _ _ Hrep) as (He & _).
  cbv zeta. split_and!; try done; try (by destruct ok'); try (destruct ok'; simpl; lia).
  intros img Himg. split; [|apply webp_prepare_mode].
  rewrite <- Hcw. unfold create_webp.
  change (open_image codec (mkdir_p (parent (WEBP_DIR ++ w)) fs2) p)
    with (open_image codec fs2 p).
  by rewrite Himg.
Qed.
End Webp.

(** ** Fault isolation *)





Section Isolation.
Context (codec : Codec).

(** The temporary file is gone when the decision has been taken. *)
Lemma replace_stage_temp_gone config p t rel original ok fs st fs2 st2 e :
  relative_to p IMG_DIR = Some rel → below IMG_DIR t = true → t ≠ p →
  replace_stage config p t original ok fs st = (fs2, st2, e) →
  e = None → files fs2 !! t = None.
Proof.
  intros Hrel Htb Htp. unfold replace_stage. rewrite Hrel.
  destruct (files fs !! t) as [out|] eqn:Hout; [destruct ok|];
    repeat (case_match; simplify_eq); intros [= <- <- <-] He; try done;
    try apply lookup_delete_eq.
  eapply move_lookup; [|done].
  rewrite backup_original_frame; [done|].
  apply not_elem_of_1. by apply img_not_backup.
Qed.

(** What one call does, seen from the image root: it returns, it counts
    an error exactly for an unreadable file, and below the image root
    it can only have changed the image itself and removed a file with
    the name of its temporary file. *)
Lemma process_image_effect config p dry content fs st :
  image_path p → files fs !! p = Some content →
  ∃ fs' st',
    process_image codec config p dry fs st = Ok (fs', st') ∧
    errors st' = errors st +
      (if decide (verdict codec config content = Unreadable) then 1 else 0) ∧
    original_size st' = original_size st + getsize content ∧
    (dry = true ∨ verdict codec config content ≠ Readable → fs' = fs) ∧
    (dry = false → verdict codec config content = Readable →
     ∀ t, temp_path p = Some t → files fs' !! t = None) ∧
    (∀ x, x ≠ p → below IMG_DIR x = true →
       files fs' !! x = files fs !! x ∨
       (temp_path p = Some x ∧ files fs' !! x = None)).
Proof.
  intros Hp Hc.
  destruct (decide (dry = true ∨ verdict codec config content ≠ Readable))
    as [Hearly|Hlate].
  - exists fs, (early_stats (verdict codec config content) (getsize content) st).
    split; [by apply process_image_early|].
    split_and!; try done; try (by destruct (verdict codec config content)).
    + destruct (verdict codec config content); case_decide; simpl; done || lia.
    + intros -> Hv. destruct Hearly; done.
    + by left.
  - assert (dry = false ∧ verdict codec config content = Readable) as [-> Hv].
    { destruct dry; [exfalso; apply Hlate; by left|]. split; [done|].
      destruct (verdict codec config content); try done;
        exfalso; apply Hlate; by right. }
    assert (Hsz : skip_small config ≤ getsize content).
    { unfold verdict in Hv.
      by destruct (Z.ltb_spec (getsize content) (skip_small config)). }
    assert (Hdec : is_Some (decode codec content)).
    { unfold verdict in Hv.
      destruct (getsize content <? skip_small config); [done|].
      destruct (decode codec content); [eauto|done]. }
    destruct (process_image_stages codec config p content fs st Hp Hc Hsz Hdec)
      as (rel & t & w & fs1 & ok & fs2 & st2 & fs3 & ok' &
          Hrel & Ht & Hw & Hopt & Hrep & Hcw & Hag3 & Hrun).
    destruct (image_path_paths p Hp) as (rel0 & t0 & w0 & _ & Ht' & _ & Htb & Htp).
    rewrite Ht in Ht'. injection Ht' as <-. clear rel0 w0.
    apply optimize_frame in Hopt as (Hag1 & _ & _).
    pose proof (replace_stage_stats _ _ _ _ _ _ _ _ _ _ Hrep) as (He & Ho & _).
    pose proof (replace_stage_frame _ _ _ _ _ _ _ _ _ _ _ Hrel Hrep) as Hag2.
    pose proof (replace_stage_temp_gone _ _ _ _ _ _ _ _ _ _ _ Hrel Htb Htp Hrep eq_refl)
      as Hgone.
    exists fs3, (if ok' then incr_webp st2 else st2). split; [done|].
    rewrite Hv. split_and!.
    + destruct ok'; simpl; rewrite He; simpl; lia.
    + destruct ok'; simpl; rewrite Ho; simpl; lia.
    + intros [?|?]; done.
    + intros _ _ t' Ht'. rewrite Ht in Ht'. injection Ht' as <-.
      rewrite Hag3; [done|]. apply not_elem_of_1. by apply img_not_webp.
    + intros x Hxp Hxb.
      assert (Hx3 : files fs3 !! x = files fs2 !! x).
      { apply Hag3, not_elem_of_1. by apply img_not_webp. }
      destruct (decide (x = t)) as [->|Hxt].
      * right. split; [done|]. by rewrite Hx3.
      * left. rewrite Hx3, Hag2, Hag1; [done| |].
        -- by apply not_elem_of_1.
        -- rewrite !elem_of_cons, elem_of_nil.
           intros [?|[?|[Heq|[]]]]; try done.
           by apply (img_not_backup x rel Hxb).
Qed.
End Isolation.

Section Batch.
Context (codec : Codec).

End Batch.

(** ** The report of a run that reads nothing *)


Lemma sum_sizes_nonneg fs images : 0 ≤ sum_sizes fs images.
Proof.
  induction images as [|p images IH]; simpl; [done|].
  unfold size_at. destruct (files fs !! p); unfold getsize; simpl; lia.
Qed.


Section NothingRead.
Context (codec : Codec).

End NothingRead.

(** * More on the pipeline *)

(** ** The accounts of a real run *)

Lemma savings_nonneg_le original new :
  0 < original → (0 <= savings original new)%Q → new ≤ original.
Proof.
  intros Ho. rewrite (savings_complement _ _ Ho). intros Hs.
  destruct (Z_le_gt_dec new original) as [Hle|Hgt]; [done|].
  assert (Hq : (1 < inject_Z new / inject_Z original)%Q); [|lra].
  apply Qlt_shift_div_l.
  - change 0%Q with (inject_Z 0). rewrite <- Zlt_Qlt. done.
  - rewrite Qmult_1_l. rewrite <- Zlt_Qlt. lia.
Qed.

Section RealRun.
Context (codec : Codec).

(** What a real run does to a readable image that is large enough, case
    by case: replaced, kept because the saving is too small, or kept
    because the optimizer gave nothing. *)
Lemma real_run_cases config p content fs st :
  image_path p → files fs !! p = Some content →
  skip_small config ≤ getsize content → is_Some (decode codec content) →
  ∃ t fs1 ok fs2 st2 fs' st',
    temp_path p = Some t ∧
    optimize codec config (lower (path_suffix p)) p t fs = (fs1, ok) ∧
    replace_stage config p t (getsize content) ok fs1
      (add_original (getsize content) st) = (fs2, st2, None) ∧
    webp_stage codec config p fs2 st2 = (fs', st', None) ∧
    process_image codec config p false fs st = Ok (fs', st') ∧
    files fs' !! p = files fs2 !! p ∧
    processed st' = processed st2 ∧ skipped st' = skipped st2 ∧
    errors st' = errors st2 ∧ new_size st' = new_size st2 ∧
    original_size st' = original_size st2 ∧
    ((ok = true ∧ ∃ out,
        files fs1 !! t = Some out ∧
        (min_savings config <= savings (getsize content) (getsize out))%Q ∧
        files fs2 !! p = Some out ∧
        st2 = incr_processed (add_new (getsize out)
                (add_original (getsize content) st))) ∨
     (ok = true ∧ ∃ out,
        files fs1 !! t = Some out ∧
        ¬ (min_savings config <= savings (getsize content) (getsize out))%Q ∧
        files fs2 !! p = Some content ∧
        st2 = incr_skipped (add_new (getsize content)
                (add_original (getsize content) st))) ∨
     (ok = false ∧ files fs2 !! p = Some content ∧
      st2 = add_new (getsize content) (add_original (getsize content) st))).
Proof.
  intros Hp Hc Hsz Hdec.
  destruct (process_image_stages codec config p content fs st Hp Hc Hsz Hdec)
    as (rel & t & w & fs1 & ok & fs2 & st2 & fs3 & ok' &
        Hrel & Ht & Hw & Hopt & Hrep & Hcw & Hag & Hrun).
  destruct (webp_stage_run codec config p rel w fs2 st2 Hrel Hw)
    as (fs3' & ok'' & Hcw' & Hws & _).
  rewrite Hcw in Hcw'. injection Hcw' as <- <-.
  pose proof (getsize_pos codec _ Hdec) as Hpos.
  destruct (image_path_paths p Hp) as (rel0 & t0 & w0 & _ & Ht' & _ & Htb & Htp).
  rewrite Ht in Ht'. injection Ht' as <-. clear rel0 w0.
  pose proof Hp as [Hpb _].
  pose proof Hopt as (Hag1 & _ & Hok)%optimize_frame.
  assert (Hp1 : files fs1 !! p = Some content).
  { rewrite Hag1; [done | by apply not_elem_of_1]. }
  exists t, fs1, ok, fs2, st2, fs3, (if ok' then incr_webp st2 else st2).
  split_and!; try done; try (by destruct ok').
  { apply Hag, not_elem_of_1. by apply img_not_webp. }
  destruct ok.
  - destruct (Hok eq_refl) as [out Hout].
    destruct (Qle_bool (min_savings config) (savings (getsize content) (getsize out)))
      eqn:Hq.
    + apply Qle_bool_iff in Hq. left. split; [done|]. exists out.
      rewrite (replace_stage_replaced config p t rel _ out) in Hrep by done.
      injection Hrep as <- <-. split_and!; try done.
      eapply move_lookup; [|done].
      rewrite backup_original_frame; [done|].
      apply not_elem_of_1. by apply img_not_backup.
    + assert (Hn : ¬ (min_savings config <= savings (getsize content) (getsize out))%Q).
      { intros Hle%Qle_bool_iff. congruence. }
      right. left. split; [done|]. exists out.
      rewrite (replace_stage_kept config p t _ out) in Hrep by done.
      injection Hrep as <- <-. split_and!; try done.
      simpl. by rewrite lookup_delete_ne.
  - right. right. split; [done|].
    rewrite replace_stage_failed in Hrep. injection Hrep as <- <-.
    split; [|done]. destruct (exists_file fs1 t); [|done].
    simpl. by rewrite lookup_delete_ne.
Qed.
End RealRun.

Lemma ratio_between_0_and_1 (a b : Z) :
  0 ≤ a ≤ b → 0 < b →
  (0 <= inject_Z a / inject_Z b * inject_Z 100)%Q ∧
  (inject_Z a / inject_Z b * inject_Z 100 <= 100)%Q.
Proof.
  intros [Ha Hab] Hb.
  assert (Hb' : (0 < inject_Z b)%Q).
  { change 0%Q with (inject_Z 0). by rewrite <- Zlt_Qlt. }
  assert (H0 : (0 <= inject_Z a / inject_Z b)%Q).
  { apply Qle_shift_div_l; [done|]. rewrite Qmult_0_l.
    change 0%Q with (inject_Z 0). by rewrite <- Zle_Qle. }
  assert (H1 : (inject_Z a / inject_Z b <= 1)%Q).
  { apply Qle_shift_div_r; [done|]. rewrite Qmult_1_l. by rewrite <- Zle_Qle. }
  change (inject_Z 100) with 100%Q. split; lra.
Qed.

Section Accounts.
Context (codec : Codec).

(** X2.  In a real run a readable image adds one to [processed] or to
    [skipped] exactly when its optimizer succeeded.  An image of a format
    without optimizer, or one whose encoder failed, is in none of the
    three counters. *)
Theorem unoptimized_file_in_no_counter config p content fs st :
  image_path p → files fs !! p = Some content →
  skip_small config ≤ getsize content → is_Some (decode codec content) →
  ∃ t fs1 ok fs' st',
    temp_path p = Some t ∧
    optimize codec config (lower (path_suffix p)) p t fs = (fs1, ok) ∧
    process_image codec config p false fs st = Ok (fs', st') ∧
    errors st' = errors st ∧
    processed st' + skipped st' =
      processed st + skipped st + (if ok then 1 else 0).
Proof.
  intros Hp Hc Hsz Hdec.
  destruct (real_run_cases codec config p content fs st Hp Hc Hsz Hdec)
    as (t & fs1 & ok & fs2 & st2 & fs' & st' & Ht & Hopt & _ & _ & Hrun & _ &
        Hpr & Hsk & Her & _ & _ & Hcases).
  exists t, fs1, ok, fs', st'. split_and!; try done.
  - rewrite Her.
    destruct Hcases as [(_ & out & _ & _ & _ & ->)|[(_ & out & _ & _ & _ & ->)|(_ & _ & ->)]];
      done.
  - rewrite Hpr, Hsk.
    destruct Hcases as [(-> & out & _ & _ & _ & ->)|[(-> & out & _ & _ & _ & ->)|(-> & _ & ->)]];
      simpl; lia.
Qed.

(** X3.  In a real run [new_size] grows, for a readable image, by the size
    that the image has on disk after the call, and [original_size] by
    the size it had before. *)
Theorem new_size_is_size_on_disk config p content fs st :
  image_path p → files fs !! p = Some content →
  skip_small config ≤ getsize content → is_Some (decode codec content) →
  ∃ fs' st' after,
    process_image codec config p false fs st = Ok (fs', st') ∧
    files fs' !! p = Some after ∧
    new_size st' = new_size st + getsize after ∧
    original_size st' = original_size st + getsize content.
Proof.
  intros Hp Hc Hsz Hdec.
  destruct (real_run_cases codec config p content fs st Hp Hc Hsz Hdec)
    as (t & fs1 & ok & fs2 & st2 & fs' & st' & Ht & Hopt & _ & _ & Hrun & Hfp &
        _ & _ & _ & Hnw & Hor & Hcases).
  rewrite <- Hfp in Hcases.
  destruct Hcases as [(_ & out & _ & _ & Hout & ->)|[(_ & out & _ & _ & Hout & ->)|(_ & Hout & ->)]].
  - exists fs', st', out. by rewrite Hnw, Hor.
  - exists fs', st', content. by rewrite Hnw, Hor.
  - exists fs', st', content. by rewrite Hnw, Hor.
Qed.

(** One call never takes from [new_size], and adds to it no more than it
    adds to [original_size], when [min_savings] is not negative. *)
Lemma process_image_new_le_original config p dry fs st fs' st' :
  image_path p → (0 <= min_savings config)%Q →
  process_image codec config p dry fs st = Ok (fs', st') →
  0 ≤ new_size st' - new_size st ≤ original_size st' - original_size st.
Proof.
  intros Hp Hmin Hrun.
  destruct (files fs !! p) as [content|] eqn:Hc;
    [|unfold process_image in Hrun; by rewrite Hc in Hrun].
  assert (Hsz0 : 0 ≤ getsize content) by (unfold getsize; lia).
  destruct (decide (dry = true ∨ verdict codec config content ≠ Readable))
    as [Hearly|Hlate].
  - rewrite (process_image_early codec config p dry content fs st Hc Hearly) in Hrun.
    injection Hrun as <- <-.
    destruct (verdict codec config content); simpl; lia.
  - assert (dry = false ∧ verdict codec config content = Readable) as [-> Hv].
    { destruct dry; [exfalso; apply Hlate; by left|]. split; [done|].
      destruct (verdict codec config content); try done;
        exfalso; apply Hlate; by right. }
    assert (Hsz : skip_small config ≤ getsize content).
    { unfold verdict in Hv.
      by destruct (Z.ltb_spec (getsize content) (skip_small config)). }
    assert (Hdec : is_Some (decode codec content)).
    { unfold verdict in Hv.
      destruct (getsize content <? skip_small config); [done|].
      destruct (decode codec content); [eauto|done]. }
    pose proof (getsize_pos codec _ Hdec) as Hpos.
    destruct (real_run_cases codec config p content fs st Hp Hc Hsz Hdec)
      as (t & fs1 & ok & fs2 & st2 & fs'' & st'' & _ & _ & _ & _ & Hrun' & _ &
          _ & _ & _ & Hnw & Hor & Hcases).
    rewrite Hrun in Hrun'. injection Hrun' as <- <-.
    rewrite Hnw, Hor.
    destruct Hcases as [(_ & out & _ & Hs & _ & ->)|[(_ & out & _ & _ & _ & ->)|(_ & _ & ->)]];
      simpl; try lia.
    assert (getsize out ≤ getsize content).
    { apply savings_nonneg_le; [done|]. by eapply Qle_trans. }
    assert (0 ≤ getsize out) by (unfold getsize; lia). lia.
Qed.

Lemma process_all_new_le_original config dry images fs st fs' st' e :
  Forall image_path images → (0 <= min_savings config)%Q →
  process_all codec config dry images fs st = (fs', st', e) →
  0 ≤ new_size st' - new_size st ≤ original_size st' - original_size st.
Proof.
  intros Himgs Hmin. revert fs st.
  induction Himgs as [|p images Hp _ IH]; intros fs st; simpl.
  - intros [= <- <- <-]. lia.
  - destruct (process_image codec config p dry fs st) as [[fs1 st1]|] eqn:Hrun.
    + intros Hall%IH.
      pose proof (process_image_new_le_original _ _ _ _ _ _ _ Hp Hmin Hrun). lia.
    + intros [= <- <- <-]. lia.
Qed.

(** X1.  The totals of any run: [new_size] is between 0 and [original_size],
    so the saving that the report prints is not negative and the
    percentage is between 0 and 100. *)
Theorem report_between_0_and_100 HAS_PIL args fs :
  let r := main codec HAS_PIL args fs in
  0 ≤ new_size (run_stats r) ≤ original_size (run_stats r) ∧
  ∀ rep o n s pct,
    report r = Some rep → size_lines rep = Some (o, n, s, pct) →
    o = original_size (run_stats r) ∧ n = new_size (run_stats r) ∧
    s = o - n ∧ 0 ≤ s ∧ (0 <= pct)%Q ∧ (pct <= 100)%Q.
Proof.
  intros r.
  assert (Hopt : ∀ r', r' = optimize_all codec args fs →
    0 ≤ new_size (run_stats r') ≤ original_size (run_stats r') ∧
    (∀ rep, report r' = Some rep → rep = generate_report (run_stats r'))).
  { intros r' ->. unfold optimize_all.
    destruct (process_all _ _ _ _ _ _) as [[fs2 st] e] eqn:Hall.
    apply process_all_new_le_original in Hall.
    - destruct e; simpl in *; (split; [lia|]); [done|]. by intros rep [= <-].
    - apply Forall_forall. intros p Hin.
      eapply recognised_image_path; [|exact Hin].
      simpl. rewrite !elem_of_cons, elem_of_nil. intros [?|[?|[?|[?|[]]]]]; done.
    - done. }
  assert (Hall : 0 ≤ new_size (run_stats r) ≤ original_size (run_stats r) ∧
    (∀ rep, report r = Some rep → rep = generate_report (run_stats r))).
  { unfold r, main. destruct HAS_PIL; simpl; [|split; [lia|done]].
    destruct (list_large args) as [kb|]; [|by apply Hopt].
    destruct (kb =? 0); [by apply Hopt|]. simpl. split; [lia|done]. }
  destruct Hall as [Hle Hrep]. split; [done|].
  intros rep o n s pct Hr Hl. rewrite (Hrep rep Hr) in Hl.
  unfold generate_report in Hl. simpl in Hl.
  destruct (Z.ltb_spec 0 (original_size (run_stats r))); [|done].
  injection Hl as <- <- <- <-. split_and!; try done; try lia.
  all: apply ratio_between_0_and_1; lia.
Qed.
End Accounts.

(** ** Temporary files *)

Section Temporary.
Context (codec : Codec).

(** X4.  In a real run, working on a readable image removes whatever file bore
    the name of its temporary file before the call. *)
Theorem temp_name_file_removed config p content precious fs st t :
  image_path p → files fs !! p = Some content →
  skip_small config ≤ getsize content → is_Some (decode codec content) →
  temp_path p = Some t → files fs !! t = Some precious →
  ∃ fs' st',
    process_image codec config p false fs st = Ok (fs', st') ∧
    files fs' !! t = None.
Proof.
  intros Hp Hc Hsz Hdec Ht _.
  destruct (process_image_effect codec config p false content fs st Hp Hc)
    as (fs' & st' & Hrun & _ & _ & _ & Hgone & _).
  exists fs', st'. split; [done|]. apply Hgone; [done| |done].
  unfold verdict. destruct (Z.ltb_spec (getsize content) (skip_small config)); [lia|].
  by destruct Hdec as [img ->].
Qed.

(** X5.  When the image list holds an image followed by a file with the name
    of its temporary file, the loop works on the image and then ends
    with an uncaught [FileNotFoundError]: the files after it are not
    looked at. *)
Theorem temp_name_clash_ends_loop config p content fs st t rest :
  image_path p → files fs !! p = Some content →
  skip_small config ≤ getsize content → is_Some (decode codec content) →
  temp_path p = Some t →
  ∃ fs1 st1,
    process_image codec config p false fs st = Ok (fs1, st1) ∧
    process_all codec config false (p :: t :: rest) fs st =
      (fs1, st1, Some FileNotFoundError).
Proof.
  intros Hp Hc Hsz Hdec Ht.
  destruct (process_image_effect codec config p false content fs st Hp Hc)
    as (fs1 & st1 & Hrun & _ & _ & _ & Hgone & _).
  exists fs1, st1. split; [done|]. simpl. rewrite Hrun.
  assert (Hnone : files fs1 !! t = None).
  { apply Hgone; [done| |done].
    unfold verdict. destruct (Z.ltb_spec (getsize content) (skip_small config)); [lia|].
    by destruct Hdec as [img ->]. }
  unfold process_image at 1. by rewrite Hnone.
Qed.
End Temporary.

(** ** The three roots *)

Lemma below_app_cons root c rel : below root (root ++ c :: rel) = true.
Proof. apply below_spec. eauto. Qed.

Section Roots.
Context (codec : Codec).

Lemma webp_stage_outside config p fs st fs3 st3 e x :
  below WEBP_DIR x = false →
  webp_stage codec config p fs st = (fs3, st3, e) →
  files fs3 !! x = files fs !! x.
Proof.
  intros Hx. unfold webp_stage.
  destruct (relative_to p IMG_DIR) as [rel|]; [|by intros [= <- <- <-]].
  destruct (with_suffix rel ".webp") as [w|] eqn:Hw; [|by intros [= <- <- <-]].
  apply with_suffix_Some in Hw as (_ & _ & ->).
  destruct (create_webp _ _ _ _ _) as [fs' ok] eqn:Hc.
  apply create_webp_frame in Hc as [Hc _].
  assert (files fs' !! x = files fs !! x) as Hfs.
  { rewrite Hc; [done|]. apply not_elem_of_1. intros ->.
    destruct (parent rel ++ [name_with_suffix (path_name rel) ".webp"])
      as [|c w] eqn:Hl; [by destruct (parent rel)|].
    by rewrite below_app_cons in Hx. }
  by destruct ok; intros [= <- <- <-].
Qed.

Lemma process_image_outside_roots config p dry fs st fs' st' x :
  below IMG_DIR p = true → outside_roots x →
  process_image codec config p dry fs st = Ok (fs', st') →
  files fs' !! x = files fs !! x.
Proof.
  intros Hp (Hxi & Hxb & Hxw). unfold process_image.
  destruct (files fs !! p) as [content|]; [|done].
  case_match; [by intros [= <- <-]|].
  destruct (get_image_info codec fs p); [|by intros [= <- <-]].
  destruct dry; [by intros [= <- <-]|].
  destruct (with_suffix p _) as [t|] eqn:Ht; [|done].
  assert (Htb : below IMG_DIR t = true) by (by eapply with_suffix_below).
  assert (Hxt : x ≠ t) by (intros ->; congruence).
  assert (Hxp : x ≠ p) by (intros ->; congruence).
  destruct (below_relative_to _ _ Hp) as (c & rel & Hrel & Hpeq).
  assert (Hxbk : x ≠ BACKUP_DIR ++ c :: rel).
  { intros ->. by rewrite below_app_cons in Hxb. }
  unfold try_body.
  destruct (optimize _ _ _ _ _ _) as [fs1 ok] eqn:Hopt.
  apply optimize_frame in Hopt as (Hag1 & _ & _).
  destruct (replace_stage _ _ _ _ _ _ _) as [[fs2 st2] e] eqn:Hrep.
  pose proof (replace_stage_frame _ _ _ _ _ _ _ _ _ _ _ Hrel Hrep) as Hag2.
  assert (H2 : files fs2 !! x = files fs !! x).
  { rewrite Hag2, Hag1; [done | by apply not_elem_of_1 |].
    rewrite !elem_of_cons, elem_of_nil. intros [?|[?|[?|[]]]]; done. }
  destruct e as [e|].
  - unfold on_exception. intros [= <- <-].
    destruct (exists_file fs2 t); simpl; rewrite ?lookup_delete_ne by done; done.
  - destruct (webp_stage _ _ _ _ _) as [[fs3 st3] e3] eqn:Hw.
    eapply webp_stage_outside in Hw; [|exact Hxw].
    destruct e3; unfold on_exception; intros [= <- <-]; [|congruence].
    destruct (exists_file fs3 t); simpl; rewrite ?lookup_delete_ne by done;
      congruence.
Qed.

(** X7.  No run touches a file outside the image root, the backup root and
    the WebP root. *)
Theorem run_confined_to_roots HAS_PIL args fs x :
  outside_roots x →
  files (run_fs (main codec HAS_PIL args fs)) !! x = files fs !! x.
Proof.
  intros Hx.
  assert (Hall : ∀ config dry images fs0 st fs' st' e,
    Forall (λ p, below IMG_DIR p = true) images →
    process_all codec config dry images fs0 st = (fs', st', e) →
    files fs' !! x = files fs0 !! x).
  { intros config dry images fs0 st fs' st' e Himgs. revert fs0 st.
    induction Himgs as [|p images Hp _ IH]; intros fs0 st; simpl.
    - by intros [= <- <- <-].
    - destruct (process_image _ _ _ _ _ _) as [[fs1 st1]|] eqn:Hrun.
      + intros Hrest%IH. rewrite Hrest.
        by eapply process_image_outside_roots.
      + by intros [= <- <- <-]. }
  assert (Hopt : files (run_fs (optimize_all codec args fs)) !! x = files fs !! x).
  { unfold optimize_all.
    destruct (process_all _ _ _ _ _ _) as [[fs2 st] e] eqn:Hrun.
    apply Hall in Hrun; [|apply find_images_below].
    by destruct e. }
  unfold main. destruct HAS_PIL; simpl; [|done].
  destruct (list_large args) as [kb|]; [|done]. by destruct (kb =? 0).
Qed.
End Roots.

(** ** The source of the WebP copy *)

Section WebpSource.
Context (codec : Codec).

(** X8.  When an image is replaced, its WebP copy is encoded from the
    re-encoded file that took its place, not from the original. *)
Theorem webp_made_from_optimized config p content fs st t fs1 out img_out :
  image_path p → files fs !! p = Some content →
  skip_small config ≤ getsize content → is_Some (decode codec content) →
  temp_path p = Some t →
  optimize codec config (lower (path_suffix p)) p t fs = (fs1, true) →
  files fs1 !! t = Some out →
  (min_savings config <= savings (getsize content) (getsize out))%Q →
  decode codec out = Some img_out →
  ∃ fs2 w fs' st' ok',
    files fs2 !! p = Some out ∧
    process_image codec config p false fs st = Ok (fs', st') ∧
    save_to (WEBP_DIR ++ w)
      (encode_webp codec (webp_prepare codec img_out) (webp_quality config) 6)
      (mkdir_p (parent (WEBP_DIR ++ w)) fs2) = (fs', ok') ∧
    webp_created st' = webp_created st + (if ok' then 1 else 0).
Proof.
  intros Hp Hc Hsz Hdec Ht Hopt Hout Hsav Himg.
  destruct (real_run_cases codec config p content fs st Hp Hc Hsz Hdec)
    as (t' & fs1' & ok & fs2 & st2 & fs' & st' & Ht' & Hopt' & Hrep & Hws & Hrun & _ &
        _ & _ & _ & _ & _ & Hcases).
  rewrite Ht in Ht'. injection Ht' as <-.
  rewrite Hopt in Hopt'. injection Hopt' as <- <-.
  pose proof (replace_stage_stats _ _ _ _ _ _ _ _ _ _ Hrep) as (_ & _ & Hwc & _).
  destruct Hcases as [(_ & out' & Hout' & _ & Hp2 & _)|[(_ & out' & Hout' & Hn & _)|(? & _)]];
    [| |done].
  2: { rewrite Hout in Hout'. injection Hout' as <-. done. }
  rewrite Hout in Hout'. injection Hout' as <-.
  destruct (image_path_paths p Hp) as (rel & t0 & w & Hrel & _ & Hw & _ & _).
  unfold webp_stage in Hws. rewrite Hrel, Hw in Hws.
  unfold create_webp, open_image in Hws. simpl in Hws. rewrite Hp2 in Hws.
  simpl in Hws. rewrite Himg in Hws.
  destruct (save_to _ _ _) as [fs3 ok'] eqn:Hsave.
  exists fs2, w, fs', st', ok'. split; [done|]. split; [done|].
  simpl in Hwc.
  destruct ok'; injection Hws as <- <-; (split; [done|]); simpl; lia.
Qed.
End WebpSource.

(** ** The PNG optimizer *)

Section Png.
Context (codec : Codec).


(** X10.  The palette attempt cannot make [optimize_png] fail: whenever the
    plain encoding of the resized image succeeds, so does
    [optimize_png]. *)
Theorem optimize_png_falls_back p t mw mh fs content src img b :
  files fs !! p = Some content → decode codec content = Some src →
  resize_if_large codec src mw mh = Some img →
  encode_png codec img true = Saved b →
  ∃ fs1 b', optimize_png codec p t mw mh fs = (fs1, true) ∧ files fs1 !! t = Some b'.
Proof.
  intros Hc Hsrc Hres Henc.
  unfold optimize_png, open_image. rewrite Hc. simpl. rewrite Hsrc, Hres.
  assert (Hplain : ∀ fs0, ∃ fs1 b',
    save_to t (encode_png codec img true) fs0 = (fs1, true) ∧ files fs1 !! t = Some b').
  { intros fs0. rewrite Henc. simpl. eexists _, b. split; [done|].
    apply lookup_insert_eq. }
  case_bool_decide; [apply Hplain|].
  case_bool_decide; [|apply Hplain].
  destruct (quantize codec img) as [img_p|]; [|apply Hplain].
  destruct (save_to t (encode_png codec img_p true) fs) as [fs' [|]] eqn:Hsv;
    [|apply Hplain].
  apply save_to_true in Hsv as (b' & _ & ->).
  eexists _, b'. split; [done|]. apply lookup_insert_eq.
Qed.
End Png.

(** ** Sizes for people *)

(** X11.  [format_size] picks the largest unit, up to TB, that the size
    reaches, and bytes for every size below 1024, the negative ones
    included; the number it prints is the size in that unit, so it is
    below 1024 except in TB, and at least 1 except in bytes. *)
Theorem format_size_unit (n : Z) :
  let (v, u) := format_size n in
  (v * inject_Z (unit_bytes u) == inject_Z n)%Q ∧
  (u = Unit_B ↔ n < 1024) ∧
  (u = Unit_KB ↔ 1024 ≤ n < 1024 ^ 2) ∧
  (u = Unit_MB ↔ 1024 ^ 2 ≤ n < 1024 ^ 3) ∧
  (u = Unit_GB ↔ 1024 ^ 3 ≤ n < 1024 ^ 4) ∧
  (u = Unit_TB ↔ 1024 ^ 4 ≤ n) ∧
  (u ≠ Unit_TB → (v < 1024)%Q) ∧
  (u ≠ Unit_B → (1 <= v)%Q).
Proof.
  unfold format_size, format_size_loop.
  repeat match goal with
  | |- context [Qle_bool ?a ?b] =>
      let H := fresh "H" in
      destruct (Qle_bool a b) eqn:H;
      [apply Qle_bool_iff in H
      |assert (¬ (a <= b)%Q) by (intros ?%Qle_bool_iff; congruence); clear H];
      cbn [negb]
  end.
  all: unfold Qle, Qlt, Qeq in *; simpl in *.
  all: split_and!; try split; intros; try done; try lia.
Qed.

(** * The scripts that rewrite pages *)

(** ** Substitution of a fixed pattern *)

Section Sub.
Context {A : Type} `{EqDecision A}.
Implicit Types pattern repl q s u : list A.

Lemma sub_from_skip pattern repl u s :
  sub_from pattern repl (length u) (u ++ s) = sub_from pattern repl 0 s.
Proof.
  induction u as [|c u IH]; simpl; [|done].
  by destruct s.
Qed.

Lemma re_sub_nil pattern repl : re_sub pattern repl [] = [].
Proof. done. Qed.

(** At an occurrence the replacement is written and the occurrence is
    passed over. *)
Lemma re_sub_match pattern repl s :
  pattern ≠ [] → re_sub pattern repl (pattern ++ s) = repl ++ re_sub pattern repl s.
Proof.
  intros Hne. destruct pattern as [|c pattern]; [done|].
  unfold re_sub. simpl.
  rewrite bool_decide_eq_true_2 by (by exists s).
  by rewrite Nat.sub_0_r, sub_from_skip.
Qed.

(** Elsewhere the character is copied. *)
Lemma re_sub_copy pattern repl c s :
  ¬ pattern `prefix_of` c :: s →
  re_sub pattern repl (c :: s) = c :: re_sub pattern repl s.
Proof.
  intros Hno. unfold re_sub. simpl. by rewrite bool_decide_eq_false_2.
Qed.

(** Induction on a page, one step of [re_sub] at a time. *)
Lemma re_sub_ind pattern :
  pattern ≠ [] →
  ∀ P : list A → Prop,
  P [] →
  (∀ s, P s → P (pattern ++ s)) →
  (∀ c s, ¬ pattern `prefix_of` c :: s → P s → P (c :: s)) →
  ∀ s, P s.
Proof.
  intros Hne P Hnil Hmatch Hcopy s.
  remember (length s) as n eqn:Hn. revert s Hn.
  induction n as [n IH] using lt_wf_ind. intros s ->.
  destruct s as [|c s]; [done|].
  destruct (decide (pattern `prefix_of` c :: s)) as [[s' Hs]|Hno].
  - rewrite Hs. apply Hmatch. eapply IH; [|done].
    rewrite Hs, length_app. destruct pattern; [done|]. simpl. lia.
  - apply Hcopy; [done|]. eapply IH; [|done]. simpl. lia.
Qed.
End Sub.

Section Occurrences.
Context {A : Type} `{EqDecision A}.
Implicit Types pattern repl q s u : list A.

Lemma compatb_false (a b : list A) :
  compatb a b = false → ¬ a `prefix_of` b ∧ ¬ b `prefix_of` a.
Proof.
  unfold compatb. intros [H1 H2]%orb_false_iff.
  by apply bool_decide_eq_false in H1, H2.
Qed.

Lemma prefix_app_compat (u r x : list A) :
  u `prefix_of` r ++ x → u `prefix_of` r ∨ r `prefix_of` u.
Proof.
  revert r. induction u as [|c u IH]; intros r Hp.
  - left. apply prefix_nil.
  - destruct r as [|c' r]; [right; apply prefix_nil|].
    simpl in Hp. pose proof (prefix_cons_inv_1 _ _ _ _ Hp) as ->.
    apply prefix_cons_inv_2 in Hp. destruct (IH r Hp); [left|right]; by apply prefix_cons.
Qed.

Lemma no_overlap_spec q repl :
  no_overlap q repl = true →
  (∀ k, (1 ≤ k < length q)%nat → compatb (drop k q) repl = false) ∧
  (∀ k, (k < length repl)%nat → compatb (drop k repl) q = false).
Proof.
  unfold no_overlap. intros [H1 H2]%andb_true_iff.
  rewrite forallb_forall in H1, H2. split; intros k Hk.
  - apply negb_true_iff, H1, in_seq. lia.
  - apply negb_true_iff, H2, in_seq. lia.
Qed.

Lemma occurs_cons q (c : A) s : occurs q (c :: s) ↔ q `prefix_of` c :: s ∨ occurs q s.
Proof.
  split.
  - intros ([|c' a] & b & Hs).
    + left. by exists b.
    + right. injection Hs as -> ->. by exists a, b.
  - intros [[b Hb]|(a & b & ->)].
    + by exists [], b.
    + by exists (c :: a), b.
Qed.

Lemma occurs_nil q : occurs q [] → q = [].
Proof.
  intros (a & b & Hs). symmetry in Hs.
  apply app_eq_nil in Hs as [_ Hs]. by apply app_eq_nil in Hs as [? _].
Qed.

Lemma occurs_app q (r x : list A) :
  occurs q (r ++ x) →
  (∃ k, (k < length r)%nat ∧ q `prefix_of` drop k r ++ x) ∨ occurs q x.
Proof.
  induction r as [|c r IH]; simpl; [by right|].
  intros [Hp|Ho]%occurs_cons.
  - left. exists 0%nat. split; [lia | done].
  - destruct (IH Ho) as [(k & Hk & Hp)|?]; [|by right].
    left. exists (S k). split; [lia | done].
Qed.

Lemma occurs_app_r q (r x : list A) : occurs q x → occurs q (r ++ x).
Proof. intros (a & b & ->). exists (r ++ a), b. by rewrite <- app_assoc. Qed.

(** What the output begins with, it took from the page, as long as it
    cannot come from a replacement. *)
Lemma prefix_of_output pattern repl s u :
  pattern ≠ [] →
  (∀ k, (k < length u)%nat → compatb (drop k u) repl = false) →
  u `prefix_of` re_sub pattern repl s → u `prefix_of` s.
Proof.
  intros Hne. revert u.
  induction s as [|s IH|c s Hno IH] using (re_sub_ind pattern Hne); intros u Hu.
  - done.
  - rewrite re_sub_match by done. intros Hp.
    destruct u as [|c u]; [apply prefix_nil|].
    destruct (compatb_false _ _ (Hu 0%nat ltac:(simpl; lia))) as [H1 H2].
    destruct (prefix_app_compat _ _ _ Hp); done.
  - rewrite re_sub_copy by done. intros Hp.
    destruct u as [|c' u]; [apply prefix_nil|].
    pose proof (prefix_cons_inv_1 _ _ _ _ Hp) as ->.
    apply prefix_cons_inv_2 in Hp. apply prefix_cons, IH; [|done].
    intros k Hk. apply (Hu (S k)). simpl. lia.
Qed.

(** A replacement leaves no occurrence of its pattern. *)
Lemma re_sub_clears pattern repl s :
  pattern ≠ [] → no_overlap pattern repl = true →
  ¬ occurs pattern (re_sub pattern repl s).
Proof.
  intros Hne [HA HB]%no_overlap_spec.
  induction s as [|s IH|c s Hno IH] using (re_sub_ind pattern Hne).
  - by intros ?%occurs_nil.
  - rewrite re_sub_match by done.
    intros [(k & Hk & Hp)|?]%occurs_app; [|done].
    destruct (compatb_false _ _ (HB k Hk)) as [H1 H2].
    destruct (prefix_app_compat _ _ _ Hp); done.
  - rewrite re_sub_copy by done. intros [Hp|?]%occurs_cons; [|done].
    apply Hno. destruct pattern as [|c' u]; [done|].
    pose proof (prefix_cons_inv_1 _ _ _ _ Hp) as ->.
    apply prefix_cons_inv_2 in Hp. apply prefix_cons.
    apply (prefix_of_output (c :: u) repl); [done| |done].
    intros k Hk. apply (HA (S k)). simpl. lia.
Qed.

(** A replacement makes no occurrence of a pattern that its replacement
    text does not overlap. *)
Lemma re_sub_keeps_absent q pattern repl s :
  q ≠ [] → pattern ≠ [] → no_overlap q repl = true →
  ¬ occurs q s → ¬ occurs q (re_sub pattern repl s).
Proof.
  intros Hq Hne [HA HB]%no_overlap_spec.
  induction s as [|s IH|c s Hno IH] using (re_sub_ind pattern Hne); intros Hs.
  - done.
  - rewrite re_sub_match by done.
    intros [(k & Hk & Hp)|Ho]%occurs_app.
    + destruct (compatb_false _ _ (HB k Hk)) as [H1 H2].
      destruct (prefix_app_compat _ _ _ Hp); done.
    + apply IH; [|done]. intros Ho'. by apply Hs, occurs_app_r.
  - rewrite re_sub_copy by done. intros [Hp|Ho]%occurs_cons.
    + apply Hs, occurs_cons. left.
      destruct q as [|c' u]; [done|].
      pose proof (prefix_cons_inv_1 _ _ _ _ Hp) as ->.
      apply prefix_cons_inv_2 in Hp. apply prefix_cons.
      apply (prefix_of_output pattern repl); [done| |done].
      intros k Hk. apply (HA (S k)). simpl. lia.
    + apply IH; [|done]. intros Ho'. apply Hs, occurs_cons. by right.
Qed.

(** Without an occurrence nothing changes. *)
Lemma re_sub_absent pattern repl s :
  pattern ≠ [] → ¬ occurs pattern s → re_sub pattern repl s = s.
Proof.
  intros Hne.
  induction s as [|s IH|c s Hno IH] using (re_sub_ind pattern Hne); intros Hs.
  - done.
  - exfalso. apply Hs. by exists [], s.
  - rewrite re_sub_copy by done. f_equal. apply IH.
    intros Ho. apply Hs, occurs_cons. by right.
Qed.

(** A pattern replaced by itself changes nothing. *)
Lemma re_sub_self pattern s : pattern ≠ [] → re_sub pattern pattern s = s.
Proof.
  intros Hne.
  induction s as [|s IH|c s Hno IH] using (re_sub_ind pattern Hne).
  - done.
  - rewrite re_sub_match by done. by rewrite IH.
  - rewrite re_sub_copy by done. by rewrite IH.
Qed.

(** An occurrence of a longer pattern holds one of each of its
    beginnings. *)
Lemma occurs_prefix q1 q2 s : occurs (q1 ++ q2) s → occurs q1 s.
Proof.
  intros (a & b & ->). exists a, (q2 ++ b). by rewrite <- app_assoc.
Qed.

(** A replacement brings no character that neither the page nor the
    replacement text has. *)
Lemma re_sub_no_new_char pattern repl s (x : A) :
  pattern ≠ [] → x ∉ repl → x ∉ s → x ∉ re_sub pattern repl s.
Proof.
  intros Hne Hr.
  induction s as [|s IH|c s Hno IH] using (re_sub_ind pattern Hne); intros Hs.
  - done.
  - rewrite re_sub_match by done. rewrite elem_of_app. intros [?|Hx]; [done|].
    apply IH; [|done]. intros Hin. apply Hs. rewrite elem_of_app. by right.
  - rewrite re_sub_copy by done. apply not_elem_of_cons in Hs as [Hxc Hs].
    apply not_elem_of_cons. split; [done|]. by apply IH.
Qed.
End Occurrences.

(** ** The pages of the projects and of the volunteering section *)

Lemma prefix_paths_fixed s : paths_fixed (prefix_paths s).
Proof.
  unfold paths_fixed, path_patterns, prefix_paths.
  repeat apply Forall_cons_2; [..|apply Forall_nil_2].
  - do 3 (apply re_sub_keeps_absent; [done | done | by vm_compute |]).
    by apply re_sub_clears; [|vm_compute].
  - do 2 (apply re_sub_keeps_absent; [done | done | by vm_compute |]).
    by apply re_sub_clears; [|vm_compute].
  - do 1 (apply re_sub_keeps_absent; [done | done | by vm_compute |]).
    by apply re_sub_clears; [|vm_compute].
  - by apply re_sub_clears; [|vm_compute].
Qed.

Lemma paths_fixed_spec s :
  paths_fixed s ↔
  ¬ occurs (attr "href" "assets/") s ∧ ¬ occurs (attr "src" "assets/") s ∧
  ¬ occurs (attr "data" "assets/") s ∧ ¬ occurs (attr "href" "index.html") s.
Proof.
  unfold paths_fixed, path_patterns. rewrite !Forall_cons, Forall_nil. tauto.
Qed.

Lemma prefix_paths_id s : paths_fixed s → prefix_paths s = s.
Proof.
  intros (H1 & H2 & H3 & H4)%paths_fixed_spec. unfold prefix_paths.
  rewrite (re_sub_absent (attr "href" "assets/")) by done.
  rewrite (re_sub_absent (attr "src" "assets/")) by done.
  rewrite (re_sub_absent (attr "data" "assets/")) by done.
  by rewrite (re_sub_absent (attr "href" "index.html")) by done.
Qed.

Lemma update_content_first_four_aux s :
  update_content s = prefix_paths s ∧ paths_fixed (update_content s).
Proof.
  assert (Heq : update_content s = prefix_paths s).
  { unfold update_content, REPLACEMENTS. simpl. fold (prefix_paths s).
    rewrite (re_sub_absent (attr "href" "index.html#")); [|done|].
    - by rewrite !re_sub_self.
    - change (attr "href" "index.html#") with (attr "href" "index.html" ++ text "#").
      intros Ho%occurs_prefix. revert Ho.
      pose proof (prefix_paths_fixed s) as (_ & _ & _ & H4)%paths_fixed_spec.
      exact H4. }
  split; [done|]. rewrite Heq. apply prefix_paths_fixed.
Qed.

(** X12.  Of the seven replacements of [update_file] only the first four can
    change a page: after the fourth no link to [index.html] is left for
    the fifth, and the last two replace a text by itself.  After them no
    path is left to prefix. *)
Theorem update_content_first_four s :
  update_content s = prefix_paths s ∧ paths_fixed (update_content s).
Proof. apply update_content_first_four_aux. Qed.

Lemma update_content_id s : paths_fixed s → update_content s = s.
Proof.
  intros Hs. destruct (update_content_first_four_aux s) as [-> _].
  by apply prefix_paths_id.
Qed.

Lemma update_content_again s :
  update_content (update_content s) = update_content s.
Proof.
  apply update_content_id. apply (update_content_first_four_aux s).
Qed.

(** X13.  Running the replacements of [update_file] on their own output
    changes nothing. *)
Theorem update_content_idempotent s :
  update_content (update_content s) = update_content s.
Proof. apply update_content_again. Qed.

Lemma universal_newlines_no_cr b : Byte.x0d ∉ universal_newlines b.
Proof.
  remember (length b) as n eqn:Hn. revert b Hn.
  induction n as [n IH] using lt_wf_ind. intros b ->.
  destruct b as [|c rest]; simpl; [by intros ?%elem_of_nil|].
  case_decide as Hc.
  - destruct rest as [|c' rest'].
    + simpl. by intros [?|?%elem_of_nil]%elem_of_cons.
    + assert (Hgo : ∀ r, (length r < length (c :: c' :: rest'))%nat →
                Byte.x0d ∉ Byte.x0a :: universal_newlines r).
      { intros r Hr [?|Hin]%elem_of_cons; [done|].
        by eapply (IH (length r)). }
      destruct (decide (c' = Byte.x0a)) as [->|Hne].
      * apply Hgo. simpl. lia.
      * assert (match c' with
                | Byte.x0a => Byte.x0a :: universal_newlines rest'
                | _ => Byte.x0a :: universal_newlines (c' :: rest')
                end = Byte.x0a :: universal_newlines (c' :: rest')) as ->
          by (by destruct c').
        apply Hgo. simpl. lia.
  - intros [?|Hin]%elem_of_cons; [done|].
    eapply (IH (length rest)); [|done|done]. simpl. lia.
Qed.

Lemma universal_newlines_id b : Byte.x0d ∉ b → universal_newlines b = b.
Proof.
  induction b as [|c rest IH]; [done|].
  intros [Hc Hrest]%not_elem_of_cons. simpl.
  rewrite decide_False by done. by rewrite IH.
Qed.

Lemma update_content_no_cr s : Byte.x0d ∉ s → Byte.x0d ∉ update_content s.
Proof.
  intros Hs. unfold update_content, REPLACEMENTS. simpl.
  repeat (apply re_sub_no_new_char;
            [done | apply (bool_decide_unpack _); by vm_compute |]).
  done.
Qed.

(** X14.  A second run of [update_file] on a page finds nothing to do: it
    returns [False] and does not write. *)
Theorem update_file_twice filepath fs fs1 changed :
  update_file filepath fs = Ok (fs1, changed) →
  update_file filepath fs1 = Ok (fs1, false).
Proof.
  unfold update_file, read_text.
  destruct (files fs !! filepath) as [b|] eqn:Hb; [|done].
  case_decide as Hch.
  - intros [= <- <-]. simpl. rewrite lookup_insert_eq.
    rewrite universal_newlines_id
      by (apply update_content_no_cr, universal_newlines_no_cr).
    rewrite update_content_again.
    case_decide as Hd; [by destruct Hd | done].
  - intros [= <- <-]. rewrite Hb. by case_decide.
Qed.

Section Lengths.
Context {A : Type} `{EqDecision A}.

Lemma re_sub_length_le (pattern repl s : list A) :
  pattern ≠ [] → (length repl ≤ length pattern)%nat →
  (length (re_sub pattern repl s) ≤ length s)%nat.
Proof.
  intros Hne Hlen.
  induction s as [|s IH|c s Hno IH] using (re_sub_ind pattern Hne).
  - done.
  - rewrite re_sub_match by done. rewrite !length_app. lia.
  - rewrite re_sub_copy by done. simpl. lia.
Qed.

Lemma re_sub_shrinks (pattern repl s : list A) :
  pattern ≠ [] → (length repl < length pattern)%nat → occurs pattern s →
  (length (re_sub pattern repl s) < length s)%nat.
Proof.
  intros Hne Hlen.
  induction s as [|s IH|c s Hno IH] using (re_sub_ind pattern Hne); intros Ho.
  - by apply occurs_nil in Ho.
  - rewrite re_sub_match by done. rewrite !length_app.
    pose proof (re_sub_length_le pattern repl s Hne). lia.
  - rewrite re_sub_copy by done. simpl.
    apply occurs_cons in Ho as [?|Ho]; [done|]. specialize (IH Ho). lia.
Qed.
End Lengths.

Lemma fix_content_eq s :
  fix_content s = re_sub (text "../../") (text "../") (prefix_paths s).
Proof. done. Qed.

Lemma prefix_paths_keeps_no_double s :
  ¬ occurs (text "../../") s → ¬ occurs (text "../../") (prefix_paths s).
Proof.
  intros Hs. unfold prefix_paths.
  by do 4 (apply re_sub_keeps_absent; [done | done | by vm_compute |]).
Qed.

Lemma fix_content_without_double_prefix_aux s :
  ¬ occurs (text "../../") s →
  fix_content s = update_content s ∧
  ¬ occurs (text "../../") (fix_content s) ∧
  fix_content (fix_content s) = fix_content s.
Proof.
  intros Hs.
  pose proof (prefix_paths_keeps_no_double s Hs) as Hno.
  assert (Heq : fix_content s = prefix_paths s).
  { rewrite fix_content_eq. by apply re_sub_absent. }
  destruct (update_content_first_four_aux s) as [Hup _].
  split; [congruence|]. split; [by rewrite Heq|].
  rewrite Heq at 1 2. rewrite fix_content_eq.
  rewrite (prefix_paths_id (prefix_paths s)) by apply prefix_paths_fixed.
  by apply re_sub_absent.
Qed.

(** X15.  On a page without [../../] the two scripts make the same changes:
    [fix_paths] prefixes the paths as [update_file] does, its last
    replacement finds nothing, and a second pass changes nothing more. *)
Theorem fix_content_without_double_prefix s :
  ¬ occurs (text "../../") s →
  fix_content s = update_content s ∧
  ¬ occurs (text "../../") (fix_content s) ∧
  fix_content (fix_content s) = fix_content s.
Proof. apply fix_content_without_double_prefix_aux. Qed.

(** X16.  On a page whose paths are all prefixed already, [fix_paths] still
    shortens every [../../] to [../]: the page is changed and gets
    shorter. *)
Theorem fix_content_shortens_parent_links s :
  paths_fixed s → occurs (text "../../") s →
  fix_content s = re_sub (text "../../") (text "../") s ∧
  (length (fix_content s) < length s)%nat ∧
  fix_content s ≠ s.
Proof.
  intros Hfixed Ho. rewrite fix_content_eq, (prefix_paths_id s Hfixed).
  assert (Hlt : (length (re_sub (text "../../") (text "../") s) < length s)%nat).
  { apply re_sub_shrinks; [done | simpl; lia | done]. }
  split; [done|]. split; [done|]. intros Heq. rewrite Heq in Hlt. lia.
Qed.

Lemma fix_content_no_cr s : Byte.x0d ∉ s → Byte.x0d ∉ fix_content s.
Proof.
  intros Hs. unfold fix_content.
  repeat (apply re_sub_no_new_char;
            [done | apply (bool_decide_unpack _); by vm_compute |]).
  done.
Qed.

(** X17.  A second run of [fix_paths] on a page that had no [../../] finds
    nothing to do: it returns [False] and does not write. *)
Theorem fix_paths_twice filepath fs b fs1 changed :
  files fs !! filepath = Some b →
  ¬ occurs (text "../../") (universal_newlines b) →
  fix_paths filepath fs = Ok (fs1, changed) →
  fix_paths filepath fs1 = Ok (fs1, false).
Proof.
  intros Hb Hno. unfold fix_paths, read_text. rewrite Hb.
  destruct (fix_content_without_double_prefix_aux _ Hno) as (_ & _ & Hidem).
  case_decide as Hch.
  - intros [= <- <-]. simpl. rewrite lookup_insert_eq.
    rewrite universal_newlines_id
      by (apply fix_content_no_cr, universal_newlines_no_cr).
    rewrite Hidem. case_decide as Hd; [by destruct Hd | done].
  - intros [= <- <-]. rewrite Hb. by case_decide.
Qed.

(** ** The name of the temporary file *)

Lemma append_nil_l b : String.append EmptyString b = b.
Proof. reflexivity. Qed.

Lemma append_cons c a b : String.append (String c a) b = String c (String.append a b).
Proof. reflexivity. Qed.

Lemma rfind_dot_app a b :
  rfind_dot (String.append a b) =
    match rfind_dot b with
    | Some j => Some (String.length a + j)%nat
    | None => rfind_dot a
    end.
Proof.
  induction a as [|c a IH].
  - rewrite append_nil_l. by destruct (rfind_dot b).
  - rewrite append_cons. cbn [rfind_dot String.length]. rewrite IH.
    by destruct (rfind_dot b).
Qed.

Lemma rfind_dot_split n i :
  rfind_dot n = Some i →
  ∃ stem ext,
    n = String.append stem (String (Ascii.ascii_of_nat 46) ext) ∧
    String.length stem = i ∧ rfind_dot ext = None.
Proof.
  revert i. induction n as [|c n IH]; intros i; cbn [rfind_dot]; [done|].
  destruct (rfind_dot n) as [j|] eqn:Hj.
  - intros [= <-]. destruct (IH j eq_refl) as (stem & ext & -> & <- & Hext).
    by exists (String c stem), ext.
  - destruct (Ascii.eqb_spec c (Ascii.ascii_of_nat 46)) as [->|]; [|done].
    intros [= <-]. by exists EmptyString, n.
Qed.

Lemma substring_app_l stem x :
  String.substring 0 (String.length stem) (String.append stem x) = stem.
Proof.
  induction stem as [|c stem IH].
  - rewrite append_nil_l. by destruct x.
  - rewrite append_cons. cbn [String.length String.substring]. by rewrite IH.
Qed.

Lemma substring_app_r stem x :
  String.substring (String.length stem) (String.length x) (String.append stem x) = x.
Proof.
  induction stem as [|c stem IH].
  - rewrite append_nil_l. cbn [String.length].
    induction x as [|c x IHx]; cbn [String.length String.substring]; [done|].
    by rewrite IHx.
  - rewrite append_cons. by cbn [String.length String.substring].
Qed.

(** A name with a stem, a dot and an extension without dot. *)
Lemma name_suffix_compose stem ext :
  stem ≠ EmptyString → ext ≠ EmptyString → rfind_dot ext = None →
  let name := String.append stem (String (Ascii.ascii_of_nat 46) ext) in
  name_suffix name = String (Ascii.ascii_of_nat 46) ext ∧
  ∀ sfx, name_with_suffix name sfx = String.append stem sfx.
Proof.
  intros Hstem Hext Hdot name.
  assert (Hr : rfind_dot name = Some (String.length stem)).
  { unfold name. rewrite rfind_dot_app. simpl. rewrite Hdot. simpl.
    f_equal. lia. }
  assert (Hlen : String.length name = (String.length stem + S (String.length ext))%nat).
  { unfold name. by rewrite length_append. }
  assert (Hs : name_suffix name = String (Ascii.ascii_of_nat 46) ext).
  { unfold name_suffix. rewrite Hr, Hlen.
    assert ((0 <? String.length stem)%nat = true) as ->.
    { apply Nat.ltb_lt. destruct stem; [done|simpl; lia]. }
    assert ((String.length stem <? String.length stem + S (String.length ext) - 1)%nat
            = true) as ->.
    { apply Nat.ltb_lt. destruct ext; [done|simpl; lia]. }
    simpl.
    replace (String.length stem + S (String.length ext) - String.length stem)%nat
      with (String.length (String (Ascii.ascii_of_nat 46) ext)) by (simpl; lia).
    apply substring_app_r. }
  split; [done|]. intros sfx. unfold name_with_suffix. rewrite Hs, Hlen.
  replace (String.length stem + S (String.length ext)
           - String.length (String (Ascii.ascii_of_nat 46) ext))%nat
    with (String.length stem) by (simpl; lia).
  unfold name. by rewrite substring_app_l.
Qed.

Lemma name_suffix_split name :
  name_suffix name ≠ EmptyString →
  ∃ stem ext,
    name = String.append stem (String (Ascii.ascii_of_nat 46) ext) ∧
    stem ≠ EmptyString ∧ ext ≠ EmptyString ∧ rfind_dot ext = None.
Proof.
  unfold name_suffix. destruct (rfind_dot name) as [i|] eqn:Hi; [|done].
  destruct (rfind_dot_split _ _ Hi) as (stem & ext & -> & <- & Hext).
  rewrite length_append. simpl.
  destruct (Nat.ltb_spec 0 (String.length stem)) as [Hs|]; [|done].
  destruct (Nat.ltb_spec (String.length stem)
              (String.length stem + S (String.length ext) - 1)) as [He|]; [|done].
  intros _. exists stem, ext. split_and!; try done.
  - intros ->. simpl in Hs. lia.
  - intros ->. simpl in He. lia.
Qed.

Lemma lower_ascii_dot c :
  Ascii.eqb (lower_ascii c) (Ascii.ascii_of_nat 46) = Ascii.eqb c (Ascii.ascii_of_nat 46).
Proof. by destruct c as [[] [] [] [] [] [] [] []]. Qed.

Lemma lower_ascii_idem c : lower_ascii (lower_ascii c) = lower_ascii c.
Proof. by destruct c as [[] [] [] [] [] [] [] []]. Qed.

Lemma lower_idem s : lower (lower s) = lower s.
Proof. induction s as [|c s IH]; simpl; [done|]. by rewrite lower_ascii_idem, IH. Qed.

Lemma rfind_dot_lower s : rfind_dot s = None → rfind_dot (lower s) = None.
Proof.
  induction s as [|c s IH]; simpl; [done|].
  destruct (rfind_dot s); [done|]. rewrite IH by done.
  rewrite lower_ascii_dot. by destruct (Ascii.eqb c _).
Qed.

Lemma append_assoc a b c :
  String.append (String.append a b) c = String.append a (String.append b c).
Proof.
  induction a as [|x a IH]; [done|]. rewrite !append_cons. by rewrite IH.
Qed.

(** The temporary name of a name with a suffix has the same suffix, in
    lower case. *)
Lemma temp_name_suffix name :
  name_suffix name ≠ EmptyString →
  name_suffix (name_with_suffix name (String.append ".opt" (lower (name_suffix name))))
  = lower (name_suffix name).
Proof.
  intros (stem & ext & -> & Hstem & Hext & Hdot)%name_suffix_split.
  destruct (name_suffix_compose stem ext Hstem Hext Hdot) as [Hs Hw].
  cbv zeta in Hs, Hw. rewrite Hs, Hw.
  assert (Hl : lower (String (Ascii.ascii_of_nat 46) ext)
               = String (Ascii.ascii_of_nat 46) (lower ext)) by done.
  rewrite Hl, <- append_assoc.
  apply name_suffix_compose.
  - destruct stem; done.
  - destruct ext; done.
  - by apply rfind_dot_lower.
Qed.

(** X6.  A file that bears the name of the temporary file of a discovered
    image is discovered too: the temporary name keeps the suffix, and
    the file is in the same directory. *)
Theorem temp_name_is_scanned fmts fs p t b :
  EmptyString ∉ fmts → p ∈ find_images fmts fs →
  temp_path p = Some t → files fs !! t = Some b →
  lower (path_suffix t) = lower (path_suffix p) ∧ t ∈ find_images fmts fs.
Proof.
  intros Hfmts Hin Ht Hb.
  pose proof Hin as (_ & Hbelow & Hsfx)%elem_of_find_images.
  assert (Hne : path_suffix p ≠ EmptyString).
  { intros Hs. rewrite Hs in Hsfx. by apply Hfmts. }
  assert (Hts : path_suffix t = lower (path_suffix p)).
  { unfold temp_path in Ht. apply with_suffix_Some in Ht as (_ & _ & ->).
    unfold path_suffix at 1, path_name at 1. rewrite last_last.
    by apply temp_name_suffix. }
  rewrite Hts, lower_idem. split; [done|].
  apply elem_of_find_images. split_and!; [eauto | |].
  - by eapply with_suffix_below.
  - by rewrite Hts, lower_idem.
Qed.

(** * The theorems on concrete files *)

Lemma pair_true {A} (x : A * bool) : x.2 = true → x = (x.1, true).
Proof. destruct x as [a b]. simpl. by intros ->. Qed.


(** A 21-byte JPEG that the encoder halves is replaced. *)
Lemma replace_iff_min_savings_witness :
  let p := Toy.img "a.jpg" in
  let fs := Toy.disk [(p, Toy.file Byte.x00 20)] in
  ∃ fs' st',
    process_image Toy.codec (Toy.config 85) p false fs stats0 = Ok (fs', st') ∧
    processed st' = processed stats0 + 1 ∧
    files fs' !! p = Some (Toy.file Byte.x00 10).
Proof.
  intros p fs.
  destruct (replace_iff_min_savings Toy.codec (Toy.config 85) p (Toy.file Byte.x00 20)
              fs stats0 (Toy.img "a.opt.jpg")
              (optimize Toy.codec (Toy.config 85) ".jpg" p (Toy.img "a.opt.jpg") fs).1
              (Toy.file Byte.x00 10))
    as (fs' & st' & Hrun & Hiff & Hrep & _).
  - split; [reflexivity | discriminate].
  - vm_compute. reflexivity.
  - vm_compute. discriminate.
  - eexists. reflexivity.
  - reflexivity.
  - apply pair_true. vm_compute. reflexivity.
  - vm_compute. reflexivity.
  - assert (Hle : (min_savings (Toy.config 85) <=
                   savings (getsize (Toy.file Byte.x00 20)) (getsize (Toy.file Byte.x00 10)))%Q).
    { vm_compute. discriminate. }
    exists fs', st'. split; [exact Hrun|]. split.
    + apply Hiff. exact Hle.
    + apply (Hrep Hle).
Defined.


(** The first replacement of a file makes its backup from the original. *)
Lemma backup_before_overwrite_witness :
  let p := Toy.img "a.jpg" in
  let fs := Toy.disk [(p, Toy.file Byte.x00 20)] in
  ∃ fs' st',
    process_image Toy.codec (Toy.config 85) p false fs stats0 = Ok (fs', st') ∧
    files fs' !! p = Some (Toy.file Byte.x00 10) ∧
    files fs' !! (BACKUP_DIR ++ ["a.jpg"]) = Some (Toy.file Byte.x00 20).
Proof.
  intros p fs.
  destruct (backup_before_overwrite Toy.codec (Toy.config 85) p ["a.jpg"]
              (Toy.file Byte.x00 20) fs stats0 (Toy.img "a.opt.jpg")
              (optimize Toy.codec (Toy.config 85) ".jpg" p (Toy.img "a.opt.jpg") fs).1
              (Toy.file Byte.x00 10))
    as (fs_b & st_b & fs' & st' & _ & _ & _ & _ & Hrun & Hp & Hb & _).
  - split; [reflexivity | discriminate].
  - reflexivity.
  - vm_compute. reflexivity.
  - vm_compute. discriminate.
  - eexists. reflexivity.
  - reflexivity.
  - apply pair_true. vm_compute. reflexivity.
  - vm_compute. reflexivity.
  - vm_compute. discriminate.
  - exists fs', st'. split; [exact Hrun|]. split; [exact Hp|]. exact Hb.
Defined.

(** C2, as stated, fails: a file can be replaced while the backup at the
    mirrored path differs from the content that the file had before the
    call.  Here the backup root already holds a file [a.jpg]; the image
    [a.jpg] is replaced and that backup stays. *)
Lemma backup_may_differ_from_original :
  ¬ (∀ codec config p rel content fs st fs' st',
       relative_to p IMG_DIR = Some rel →
       files fs !! p = Some content →
       process_image codec config p false fs st = Ok (fs', st') →
       processed st' = processed st + 1 →
       files fs' !! (BACKUP_DIR ++ rel) = Some content).
Proof.
  intros Hclaim.
  set (p := Toy.img "a.jpg").
  set (b := BACKUP_DIR ++ ["a.jpg"]%string).
  set (fs := Toy.disk [(p, Toy.file Byte.x00 20); (b, [Byte.x09])]).
  assert (Hb : match process_image Toy.codec (Toy.config 85) p false fs stats0 with
               | Ok (fs', st') => Some (files fs' !! b, processed st')
               | Raise _ => None
               end = Some (Some [Byte.x09], 1)) by (vm_compute; reflexivity).
  destruct (process_image Toy.codec (Toy.config 85) p false fs stats0)
    as [[fs' st']|] eqn:Hrun; [|done].
  injection Hb as Hb Hpr.
  specialize (Hclaim Toy.codec (Toy.config 85) p ["a.jpg"]%string (Toy.file Byte.x00 20)
                fs stats0 fs' st' eq_refl eq_refl Hrun Hpr).
  fold b in Hclaim. rewrite Hb in Hclaim. discriminate Hclaim.
Qed.



(** The WebP copy of a JPEG that is replaced. *)
Lemma webp_copy_attempted_witness :
  let p := Toy.img "a.jpg" in
  let fs := Toy.disk [(p, Toy.file Byte.x00 20)] in
  ∃ fs' st',
    process_image Toy.codec (Toy.config 85) p false fs stats0 = Ok (fs', st') ∧
    errors st' = errors stats0.
Proof.
  intros p fs.
  destruct (webp_copy_attempted Toy.codec (Toy.config 85) p (Toy.file Byte.x00 20)
              fs stats0)
    as (rel & w & t & fs1 & ok & fs2 & st2 & fs' & ok' & _ & _ & _ & _ & _ & _ & H).
  - split; [reflexivity | discriminate].
  - vm_compute. reflexivity.
  - vm_compute. discriminate.
  - eexists. reflexivity.
  - cbv zeta in H. destruct H as (Hrun & _ & _ & _ & He1 & He2 & _).
    eexists _, _. split; [exact Hrun|]. rewrite He1. exact He2.
Defined.





(** With [--list-large 500] nothing is written. *)
Lemma list_large_zero_optimizes_witness :
  let fs := Toy.disk [(Toy.img "a.jpg", Toy.file Byte.x00 20)] in
  let r := main Toy.codec true (mkArgs false 85 1920 (Some 500)) fs in
  0 < 500 ∧ run_fs r = fs ∧ termination r = Exit 0.
Proof.
  intros fs r.
  assert (HK : 0 < 500) by lia.
  destruct list_large_zero_optimizes as (_ & _ & Hlist).
  destruct (Hlist Toy.codec false 85 1920 fs 500 HK) as (Hfs & Hexit & _).
  split; [exact HK|]. split; [exact Hfs | exact Hexit].
Defined.

(** ** The accounts, the temporary files and the pages, on concrete files *)

Lemma occursb_spec {A} `{EqDecision A} (q s : list A) :
  occursb q s = true ↔ occurs q s.
Proof.
  induction s as [|c s IH]; simpl.
  - rewrite bool_decide_eq_true. split.
    + intros ->. by exists [], [].
    + apply occurs_nil.
  - rewrite occurs_cons, orb_true_iff, bool_decide_eq_true, IH. done.
Qed.

Lemma occursb_false {A} `{EqDecision A} (q s : list A) :
  occursb q s = false → ¬ occurs q s.
Proof. intros Hb Ho%occursb_spec. by rewrite Hb in Ho. Qed.

(** A JPEG that the encoder cannot write is counted nowhere. *)
Lemma unoptimized_file_in_no_counter_witness :
  let p := Toy.img "a.jpg" in
  let content := Toy.file Byte.x00 20 in
  let fs := Toy.disk [(p, content)] in
  ∃ t fs1 ok fs' st',
    temp_path p = Some t ∧
    optimize Toy.codec (Toy.config 0) (lower (path_suffix p)) p t fs = (fs1, ok) ∧
    process_image Toy.codec (Toy.config 0) p false fs stats0 = Ok (fs', st') ∧
    errors st' = errors stats0 ∧
    processed st' + skipped st' =
      processed stats0 + skipped stats0 + (if ok then 1 else 0).
Proof.
  intros p content fs.
  apply (unoptimized_file_in_no_counter Toy.codec (Toy.config 0) p content fs stats0).
  - split; [reflexivity | discriminate].
  - vm_compute. reflexivity.
  - vm_compute. discriminate.
  - eexists. reflexivity.
Defined.

(** The new size of a replaced JPEG is the size of the file after the
    call. *)
Lemma new_size_is_size_on_disk_witness :
  let p := Toy.img "a.jpg" in
  let content := Toy.file Byte.x00 20 in
  let fs := Toy.disk [(p, content)] in
  ∃ fs' st' after,
    process_image Toy.codec (Toy.config 85) p false fs stats0 = Ok (fs', st') ∧
    files fs' !! p = Some after ∧
    new_size st' = new_size stats0 + getsize after ∧
    original_size st' = original_size stats0 + getsize content.
Proof.
  intros p content fs.
  apply (new_size_is_size_on_disk Toy.codec (Toy.config 85) p content fs stats0).
  - split; [reflexivity | discriminate].
  - vm_compute. reflexivity.
  - vm_compute. discriminate.
  - eexists. reflexivity.
Defined.

(** A file [a.opt.jpg] beside [a.jpg] is gone after [a.jpg] is worked on. *)
Lemma temp_name_file_removed_witness :
  let p := Toy.img "a.jpg" in
  let t := Toy.img "a.opt.jpg" in
  let content := Toy.file Byte.x00 20 in
  let fs := Toy.disk [(p, content); (t, [Byte.x09])] in
  ∃ fs' st',
    process_image Toy.codec (Toy.config 85) p false fs stats0 = Ok (fs', st') ∧
    files fs' !! t = None.
Proof.
  intros p t content fs.
  apply (temp_name_file_removed Toy.codec (Toy.config 85) p content [Byte.x09] fs stats0 t).
  - split; [reflexivity | discriminate].
  - vm_compute. reflexivity.
  - vm_compute. discriminate.
  - eexists. reflexivity.
  - reflexivity.
  - vm_compute. reflexivity.
Defined.

(** The loop over [a.jpg] and [a.opt.jpg] ends at the second file. *)
Lemma temp_name_clash_ends_loop_witness :
  let p := Toy.img "a.jpg" in
  let t := Toy.img "a.opt.jpg" in
  let content := Toy.file Byte.x00 20 in
  let fs := Toy.disk [(p, content); (t, Toy.file Byte.x00 30)] in
  ∃ fs1 st1,
    process_image Toy.codec (Toy.config 85) p false fs stats0 = Ok (fs1, st1) ∧
    process_all Toy.codec (Toy.config 85) false [p; t] fs stats0 =
      (fs1, st1, Some FileNotFoundError).
Proof.
  intros p t content fs.
  apply (temp_name_clash_ends_loop Toy.codec (Toy.config 85) p content fs stats0 t []).
  - split; [reflexivity | discriminate].
  - vm_compute. reflexivity.
  - vm_compute. discriminate.
  - eexists. reflexivity.
  - reflexivity.
Defined.

(** A page beside the image root is as it was after a run. *)
Lemma run_confined_to_roots_witness :
  let p := Toy.img "a.jpg" in
  let x := ["index.html"]%string in
  let fs := Toy.disk [(p, Toy.file Byte.x00 20); (x, [Byte.x3c])] in
  files (run_fs (main Toy.codec true (mkArgs false 85 1920 None) fs)) !! x
  = files fs !! x.
Proof.
  intros p x fs.
  apply (run_confined_to_roots Toy.codec true (mkArgs false 85 1920 None) fs x).
  split; [reflexivity | split; reflexivity].
Defined.

(** The WebP copy of a replaced JPEG is made from the new file. *)
Lemma webp_made_from_optimized_witness :
  let p := Toy.img "a.jpg" in
  let t := Toy.img "a.opt.jpg" in
  let content := Toy.file Byte.x00 20 in
  let out := Toy.file Byte.x00 10 in
  let fs := Toy.disk [(p, content)] in
  ∃ fs2 w fs' st' ok',
    files fs2 !! p = Some out ∧
    process_image Toy.codec (Toy.config 85) p false fs stats0 = Ok (fs', st') ∧
    save_to (WEBP_DIR ++ w)
      (encode_webp Toy.codec
         (webp_prepare Toy.codec (mkImage 64 48 Mode_RGB 1 (replicate 10 Byte.x07)))
         (webp_quality (Toy.config 85)) 6)
      (mkdir_p (parent (WEBP_DIR ++ w)) fs2) = (fs', ok') ∧
    webp_created st' = webp_created stats0 + (if ok' then 1 else 0).
Proof.
  intros p t content out fs.
  apply (webp_made_from_optimized Toy.codec (Toy.config 85) p content fs stats0 t
           (optimize Toy.codec (Toy.config 85) ".jpg" p t fs).1 out).
  - split; [reflexivity | discriminate].
  - vm_compute. reflexivity.
  - vm_compute. discriminate.
  - eexists. reflexivity.
  - reflexivity.
  - apply pair_true. vm_compute. reflexivity.
  - vm_compute. reflexivity.
  - vm_compute. discriminate.
  - reflexivity.
Defined.


(** The same PNG: the plain encoding succeeds, so the step does. *)
Lemma optimize_png_falls_back_witness :
  let p := Toy.img "a.png" in
  let t := Toy.img "a.opt.png" in
  let content := Toy.file Byte.x00 20 in
  let fs := Toy.disk [(p, content)] in
  ∃ fs1 b',
    optimize_png Toy.codec p t 1920 1080 fs = (fs1, true) ∧ files fs1 !! t = Some b'.
Proof.
  intros p t content fs.
  apply (optimize_png_falls_back Toy.codec p t 1920 1080 fs content
           (mkImage 64 48 Mode_RGB 1 (replicate 20 Byte.x07))
           (mkImage 64 48 Mode_RGB 1 (replicate 20 Byte.x07))
           (Toy.file Byte.x00 10)).
  - vm_compute. reflexivity.
  - reflexivity.
  - reflexivity.
  - reflexivity.
Defined.

(** A file with the temporary name of a discovered image is discovered. *)
Lemma temp_name_is_scanned_witness :
  let p := Toy.img "a.JPG" in
  let t := Toy.img "a.opt.jpg" in
  let fs := Toy.disk [(p, Toy.file Byte.x00 20); (t, [Byte.x09])] in
  lower (path_suffix t) = lower (path_suffix p) ∧
  t ∈ find_images (formats (Toy.config 85)) fs.
Proof.
  intros p t fs.
  apply (temp_name_is_scanned (formats (Toy.config 85)) fs p t [Byte.x09]).
  - apply (bool_decide_unpack _). vm_compute. exact I.
  - apply (bool_decide_unpack _). vm_compute. exact I.
  - reflexivity.
  - vm_compute. reflexivity.
Defined.

(** A project page with one style sheet: the second call finds nothing
    to do. *)
Lemma update_file_twice_witness :
  let filepath := ["projects"; "a.html"]%string in
  let page := attr "href" "assets/css/style.css" in
  let fs := Toy.disk [(filepath, page)] in
  let fs1 := write_file filepath (attr "href" "../assets/css/style.css") fs in
  update_file filepath fs = Ok (fs1, true) ∧
  update_file filepath fs1 = Ok (fs1, false).
Proof.
  intros filepath page fs fs1.
  assert (Hfirst : update_file filepath fs = Ok (fs1, true)).
  { assert (Hr : read_text fs filepath = Ok page) by (vm_compute; reflexivity).
    assert (Hu : update_content page = attr "href" "../assets/css/style.css")
      by (vm_compute; reflexivity).
    unfold update_file. rewrite Hr, Hu.
    case_decide as Hd; [reflexivity|].
    exfalso. vm_compute in Hd. discriminate Hd. }
  split; [exact Hfirst|].
  exact (update_file_twice filepath fs fs1 true Hfirst).
Defined.

(** A page without a doubled parent link. *)
Lemma fix_content_without_double_prefix_witness :
  let s := attr "src" "assets/img/a.png" in
  fix_content s = update_content s ∧
  ¬ occurs (text "../../") (fix_content s) ∧
  fix_content (fix_content s) = fix_content s.
Proof.
  intros s. apply (fix_content_without_double_prefix s).
  apply occursb_false. vm_compute. reflexivity.
Defined.

(** A page with a link two directories up loses one of the two. *)
Lemma fix_content_shortens_parent_links_witness :
  let s := attr "href" "../../assets/css/style.css" in
  fix_content s = re_sub (text "../../") (text "../") s ∧
  (length (fix_content s) < length s)%nat ∧
  fix_content s ≠ s.
Proof.
  intros s. apply (fix_content_shortens_parent_links s).
  - repeat constructor; apply occursb_false; vm_compute; reflexivity.
  - apply occursb_spec. vm_compute. reflexivity.
Defined.

(** A volunteering page with one image: the second call finds nothing to
    do. *)
Lemma fix_paths_twice_witness :
  let filepath := ["volunteering"; "a.html"]%string in
  let page := attr "src" "assets/img/a.png" in
  let fs := Toy.disk [(filepath, page)] in
  let fs1 := write_file filepath (attr "src" "../assets/img/a.png") fs in
  fix_paths filepath fs = Ok (fs1, true) ∧
  fix_paths filepath fs1 = Ok (fs1, false).
Proof.
  intros filepath page fs fs1.
  assert (Hfile : files fs !! filepath = Some page) by (vm_compute; reflexivity).
  assert (Hfirst : fix_paths filepath fs = Ok (fs1, true)).
  { assert (Hr : read_text fs filepath = Ok page) by (vm_compute; reflexivity).
    assert (Hu : fix_content page = attr "src" "../assets/img/a.png")
      by (vm_compute; reflexivity).
    unfold fix_paths. rewrite Hr, Hu.
    case_decide as Hd; [reflexivity|].
    exfalso. vm_compute in Hd. discriminate Hd. }
  split; [exact Hfirst|].
  apply (fix_paths_twice filepath fs page fs1 true Hfile); [|exact Hfirst].
  apply occursb_false. vm_compute. reflexivity.
Defined.
